(** * Time Tagger measurement primitives: FastBinning and the Counter ring

    A shallow embedding of the header-only parts of
    [timrtiger/include/Iterators.h], together with models of the parts
    whose implementation lives in the closed library (those are marked
    "Modelled from the spec"). *)

From Stdlib Require Import ZArith Lia Bool.
From stdpp Require Import base option list.

Local Open Scope Z_scope.

(** ** Fixed-width unsigned arithmetic

    [uint64_t] and [uint32_t] values are integers in [Z]; the conversions
    and the wrap-around of the C++ operators are written out. *)

Module UInt.

Definition uint64_t (z : Z) : Z := z mod 2 ^ 64.
Definition uint32_t (z : Z) : Z := z mod 2 ^ 32.
Definition uint128_t (z : Z) : Z := z mod 2 ^ 128.

Definition is_uint64 (z : Z) : Prop := 0 <= z < 2 ^ 64.

(** [a + b] and [a * b] on [uint64_t] operands. *)
Definition add64 (a b : Z) : Z := uint64_t (a + b).
Definition mul64 (a b : Z) : Z := uint64_t (a * b).

(** [a >> n] for a shift count that is a compile-time constant in range. *)
Definition shr (a n : Z) : Z := Z.shiftr a n.

(** [a / b] on unsigned operands; division by zero is undefined behaviour. *)
Definition udiv (a b : Z) : option Z :=
  if b =? 0 then None else Some (a / b).

End UInt.

(** ** FastBinning (Iterators.h) *)

Module FastBinning.
Import UInt.

Inductive Mode : Set :=
  | ConstZero
  | Dividend
  | PowerOfTwo
  | FixedPoint_32
  | FixedPoint_64
  | Divide_32
  | Divide_64.

#[global] Instance Mode_eq_dec : EqDecision Mode.
Proof. solve_decision. Defined.

(** The private data members of the class. *)
Record t : Set := Build {
  divisor : Z;       (* uint64_t *)
  max_duration : Z;  (* uint64_t *)
  factor : Z;        (* uint64_t *)
  bits_shift : Z;    (* int *)
  mode : Mode;
}.

Definition getMode (fb : t) : Mode := mode fb.

(** *** MulHigh: the three preprocessor branches *)

Inductive Target : Set :=
  | HasInt128      (* __SIZEOF_INT128__ : GCC, clang *)
  | MsvcIntrinsic  (* _M_X64 or _M_ARM64 : __umulh *)
  | GenericTarget. (* everything else *)

(** [((unsigned __int128)a * (unsigned __int128)b) >> 64], converted to
    the [uint64_t] return type. *)
Definition MulHigh_int128 (a b : Z) : Z :=
  uint64_t (shr (uint128_t (uint128_t a * uint128_t b)) 64).

(** The MSVC intrinsic: the high 64 bits of the 128-bit product. *)
Definition umulh (a b : Z) : Z := (a * b) / 2 ^ 64.

(** The generic fallback, statement by statement. *)
Definition MulHigh_generic (a b : Z) : Z :=
  let a_lo := uint32_t a in
  let a_hi := shr a 32 in
  let b_lo := uint32_t b in
  let b_hi := shr b 32 in
  let a_x_b_hi := mul64 a_hi b_hi in
  let a_x_b_mid := mul64 a_hi b_lo in
  let b_x_a_mid := mul64 b_hi a_lo in
  let a_x_b_lo := mul64 a_lo b_lo in
  let carry_bit :=
    shr (add64 (add64 (uint32_t a_x_b_mid) (uint32_t b_x_a_mid))
               (shr a_x_b_lo 32)) 32 in
  let multhi :=
    add64 (add64 (add64 a_x_b_hi (shr a_x_b_mid 32)) (shr b_x_a_mid 32))
          carry_bit in
  multhi.

Definition MulHigh (tg : Target) (a b : Z) : Z :=
  match tg with
  | HasInt128 => MulHigh_int128 a b
  | MsvcIntrinsic => umulh a b
  | GenericTarget => MulHigh_generic a b
  end.

(** *** divide<mode>(duration) *)

(** The [switch] of [divide].  [None] is undefined behaviour: a shift count
    outside [0, 64) or a division by zero. *)
Definition divide_switch (tg : Target) (m : Mode) (fb : t) (duration : Z)
  : option Z :=
  match m with
  | ConstZero => Some 0
  | Dividend => Some duration
  | PowerOfTwo =>
      if (0 <=? bits_shift fb) && (bits_shift fb <? 64)
      then Some (shr duration (bits_shift fb)) else None
  | FixedPoint_32 => Some (shr (mul64 duration (factor fb)) 32)
  | FixedPoint_64 => Some (MulHigh tg duration (factor fb))
  | Divide_32 => udiv (uint32_t duration) (uint32_t (divisor fb))
  | Divide_64 => udiv duration (divisor fb)
  end.

Inductive Assertion : Set :=
  | assert_duration_le_max   (* assert(duration <= max_duration) *)
  | assert_mode              (* assert(mode == this->mode) *)
  | assert_quotient.         (* assert(out == duration / divisor) *)

Inductive Outcome : Set :=
  | Returns (out : Z)
  | AssertionFailed (a : Assertion)
  | Undefined.

(** [divide] in a debug build: the three assertions are evaluated. *)
Definition divide (tg : Target) (m : Mode) (fb : t) (duration : Z) : Outcome :=
  if negb (duration <=? max_duration fb) then
    AssertionFailed assert_duration_le_max
  else if negb (bool_decide (m = mode fb)) then
    AssertionFailed assert_mode
  else
    match divide_switch tg m fb duration with
    | None => Undefined
    | Some out =>
        match udiv duration (divisor fb) with
        | None => Undefined
        | Some reference =>
            if out =? reference then Returns out
            else AssertionFailed assert_quotient
        end
    end.

(** [divide] with [NDEBUG]: only the [switch] remains. *)
Definition divide_release (tg : Target) (m : Mode) (fb : t) (duration : Z)
  : option Z :=
  divide_switch tg m fb duration.

(** The macro [BINNING_TEMPLATE_HELPER(fun_name, binner, ...)]: a [switch]
    on [binner.getMode()] that calls the instantiation of [fun_name] for
    the matching enumerator. *)
Definition BINNING_TEMPLATE_HELPER {A : Type} (fun_name : Mode -> A) (binner : t)
  : A :=
  match getMode binner with
  | ConstZero => fun_name ConstZero
  | Dividend => fun_name Dividend
  | PowerOfTwo => fun_name PowerOfTwo
  | FixedPoint_32 => fun_name FixedPoint_32
  | FixedPoint_64 => fun_name FixedPoint_64
  | Divide_32 => fun_name Divide_32
  | Divide_64 => fun_name Divide_64
  end.

(** *** The constructor and the selection conditions *)

(** The fixed-point reciprocal of [divisor] with [bits] fractional bits,
    rounded up. *)
Definition reciprocal (bits divisor : Z) : Z := 2 ^ bits / divisor + 1.

(** A factor [f] is exact for [divisor] over [[0, max]] when the excess
    [f * divisor - 2^bits] is non-negative and, scaled by [max], stays below
    one unit of the quotient. *)
Definition fixed_point_exact (bits divisor max f : Z) : bool :=
  (2 ^ bits <=? f * divisor) && (max * (f * divisor - 2 ^ bits) <? 2 ^ bits).

(** Modelled from the spec: the selection condition of each variant, that
    is the rows of the table of section 4.1 read as conditions on the data
    members ([FastBinning::FastBinning] is only declared in Iterators.h).
    "power of two" is [divisor = 2^bits_shift]; "factor in 32", "product of
    factor and max fits in 64 bits" and "both operands fit in 32 bits" are
    the comparisons below.  The table gives "is exact" as the condition of
    FixedPoint_64 and the contract of 4.1 demands it of every chosen
    variant, so both fixed-point rows carry [fixed_point_exact]. *)
Definition selected (fb : t) : bool :=
  match mode fb with
  | ConstZero => max_duration fb <? divisor fb
  | Dividend => divisor fb =? 1
  | PowerOfTwo =>
      (0 <=? bits_shift fb) && (bits_shift fb <? 64)
      && (divisor fb =? 2 ^ bits_shift fb)
  | FixedPoint_32 =>
      (factor fb <? 2 ^ 32) && (max_duration fb * factor fb <? 2 ^ 64)
      && fixed_point_exact 32 (divisor fb) (max_duration fb) (factor fb)
  | FixedPoint_64 =>
      (factor fb <? 2 ^ 64)
      && fixed_point_exact 64 (divisor fb) (max_duration fb) (factor fb)
  | Divide_32 => (divisor fb <? 2 ^ 32) && (max_duration fb <? 2 ^ 32)
  | Divide_64 => true
  end.

(** The data members hold values of their C++ types. *)
Definition in_range (fb : t) : bool :=
  (0 <=? divisor fb) && (divisor fb <? 2 ^ 64)
  && (0 <=? max_duration fb) && (max_duration fb <? 2 ^ 64)
  && (0 <=? factor fb) && (factor fb <? 2 ^ 64)
  && (- 2 ^ 31 <=? bits_shift fb) && (bits_shift fb <? 2 ^ 31).

(** Modelled from the spec: an executable constructor
    [FastBinning(uint64_t divisor, uint64_t max_duration_)] (the one of
    Iterators.h is only declared).  It takes the first row of the table of
    section 4.1, top to bottom, whose condition [selected] holds, with the
    rounded-up reciprocal as factor, which the spec leaves open; members a
    variant does not read are set to zero.  It serves to build objects that
    satisfy [selected]. *)
Definition FastBinning (divisor max_duration_ : Z) : t :=
  let pick f s m := Build divisor max_duration_ f s m in
  let f32 := reciprocal 32 divisor in
  let f64 := reciprocal 64 divisor in
  if max_duration_ <? divisor then pick 0 0 ConstZero
  else if divisor =? 1 then pick 0 0 Dividend
  else if divisor =? 2 ^ Z.log2 divisor then pick 0 (Z.log2 divisor) PowerOfTwo
  else if (f32 <? 2 ^ 32) && (max_duration_ * f32 <? 2 ^ 64)
          && fixed_point_exact 32 divisor max_duration_ f32
       then pick f32 0 FixedPoint_32
  else if (f64 <? 2 ^ 64) && fixed_point_exact 64 divisor max_duration_ f64
       then pick f64 0 FixedPoint_64
  else if (divisor <? 2 ^ 32) && (max_duration_ <? 2 ^ 32)
       then pick 0 0 Divide_32
  else pick 0 0 Divide_64.

(** *** The choice of the constructor, as the spec states it *)

(** Modelled from the spec: the rows of the table of section 4.1 as they
    are worded, read on the data members ([FastBinning::FastBinning] is
    only declared in Iterators.h). *)
Definition row (fb : t) : Prop :=
  match mode fb with
  | ConstZero => max_duration fb < divisor fb
  | Dividend => divisor fb = 1
  | PowerOfTwo => 0 <= bits_shift fb < 64 /\ divisor fb = 2 ^ bits_shift fb
  | FixedPoint_32 =>
      factor fb < 2 ^ 32 /\ max_duration fb * factor fb < 2 ^ 64
  | FixedPoint_64 => True
  | Divide_32 => divisor fb < 2 ^ 32 /\ max_duration fb < 2 ^ 32
  | Divide_64 => True
  end.

(** Modelled from the spec: the contract of section 4.1, "for every
    duration in the declared range, the chosen variant returns the exact
    integer quotient", as the debug build of [divide] checks it. *)
Definition exact_on (tg : Target) (fb : t) : Prop :=
  forall duration,
    0 <= duration <= max_duration fb ->
    divide tg (mode fb) fb duration = Returns (duration / divisor fb).

(** The order of the table, cheapest first. *)
Definition rank (m : Mode) : nat :=
  match m with
  | ConstZero => 0
  | Dividend => 1
  | PowerOfTwo => 2
  | FixedPoint_32 => 3
  | FixedPoint_64 => 4
  | Divide_32 => 5
  | Divide_64 => 6
  end.

(** A variant can be chosen for [divisor] and [max_duration_] when some
    factor and shift meet its row and make it exact on the range. *)
Definition admits (tg : Target) (divisor max_duration_ : Z) (m : Mode)
  : Prop :=
  exists f s,
    in_range (Build divisor max_duration_ f s m) = true
    /\ row (Build divisor max_duration_ f s m)
    /\ exact_on tg (Build divisor max_duration_ f s m).

(** Modelled from the spec: what [getMode()] reports after
    [FastBinning(divisor, max_duration_)].  Section 2: the constructor
    "chooses at construction the cheapest variant that is exact over a
    known input range"; the table of section 4.1 gives the rows and their
    order. *)
Definition selects (tg : Target) (divisor max_duration_ : Z) (m : Mode)
  : Prop :=
  admits tg divisor max_duration_ m
  /\ forall m', (rank m' < rank m)%nat -> ~ admits tg divisor max_duration_ m'.

(** Some 32-bit factor whose product with [max] fits in 64 bits divides by
    [d] on [[0, max]]; some 64-bit factor does. *)
Definition fits_32 (d max : Z) : Prop :=
  exists f, 0 <= f < 2 ^ 32 /\ max * f < 2 ^ 64
            /\ forall x, 0 <= x <= max -> (x * f) / 2 ^ 32 = x / d.

Definition fits_64 (d max : Z) : Prop :=
  exists f, 0 <= f < 2 ^ 64
            /\ forall x, 0 <= x <= max -> (x * f) / 2 ^ 64 = x / d.

End FastBinning.

(** ** Counter ring (Iterators.h: [Counter], [CounterData]) *)

Module Counter.
Local Open Scope nat_scope.

(** Conversion of a count to the [uint32_t] members of [CounterData]. *)
Definition uint32_t (n : nat) : N := (N.of_nat n mod 2 ^ 32)%N.

Section Ring.
Context {Bin : Type} `{!Inhabited Bin}.

(** The overflow flag a bin carries. *)
Variable in_overflow : Bin -> bool.

(** [CounterData]: the public members [size], [dropped_bins], [overflow]
    and the bins behind the private [data] pointer, oldest first. *)
Record CounterData : Type := Build_CounterData {
  size : N;          (* number of returned bins *)
  dropped_bins : N;  (* bins dropped because n_values has been exceeded *)
  overflow : bool;   (* has anything been in overflow mode *)
  data : list Bin;
}.

(** Modelled from the spec: the state behind [Counter::impl] ([CounterImpl]
    is not part of the headers).  Section 4.6: a ring of [n_values] bins
    ("circular"), the number of bins completed since the last clear, and
    the "internal read-cursor" of [getDataObject]: the number of completed
    bins that a removing call has already passed. *)
Record t : Type := Build {
  n_values : nat;
  ring : list Bin;
  completed : nat;
  cursor : nat;
}.

(** Modelled from the spec: [clear_impl] "zeros result state". *)
Definition clear_impl (c : t) : t :=
  Build (n_values c) (replicate (n_values c) inhabitant) 0 0.

(** Modelled from the spec: the rotation at the end of a bin (inside
    [next_impl]).  The completed bin takes the place of the oldest column
    of the ring. *)
Definition rotate (b : Bin) (c : t) : t :=
  Build (n_values c)
        (<[completed c mod n_values c := b]> (ring c))
        (S (completed c))
        (cursor c).

(** Modelled from the spec: [getDataObject(remove)] "returns a shared
    snapshot of the most recent completed bins (up to n_values) and, if
    remove is set, advances an internal read-cursor so the next call
    returns only bins newer than this one"; "dropped_bins reports how many
    completed bins were evicted by ring pressure before a read could take
    them".  Header: "fetch the most recent up to n_values bins, which have
    not been removed before". *)
Definition getDataObject (remove : bool) (c : t) : CounterData * t :=
  let unread := completed c - cursor c in
  let count := unread `min` n_values c in
  let first := completed c - count in
  let bins :=
    (fun k => ring c !!! ((first + k) mod n_values c)) <$> seq 0 count in
  (Build_CounterData (uint32_t count) (uint32_t (unread - count))
     (existsb in_overflow bins) bins,
   if remove then Build (n_values c) (ring c) (completed c) (completed c)
   else c).

(** What happens to a counter between two clears: bins complete, and the
    client polls. *)
Inductive Event : Type :=
  | BinCompleted (b : Bin)
  | GetDataObject (remove : bool).

(** One event; a call is logged with its [remove] flag and its result. *)
Definition step (acc : list (bool * CounterData) * t) (ev : Event)
  : list (bool * CounterData) * t :=
  match ev with
  | BinCompleted b => (acc.1, rotate b acc.2)
  | GetDataObject remove =>
      let (out, c') := getDataObject remove acc.2 in
      (acc.1 ++ [(remove, out)], c')
  end.

Definition run (c : t) (evs : list Event) : list (bool * CounterData) * t :=
  foldl step ([], c) evs.

(** The bins completed by a run, oldest first. *)
Definition completed_bins (evs : list Event) : list Bin :=
  omap (fun ev => match ev with
                  | BinCompleted b => Some b
                  | GetDataObject _ => None
                  end) evs.

(** The bins handed out by the removing calls of a log, in call order. *)
Definition removed_bins (log : list (bool * CounterData)) : list Bin :=
  log ≫= (fun call : bool * CounterData =>
            if call.1 then data call.2 else []).

(** The results of the removing calls of a log, in call order. *)
Definition removing (log : list (bool * CounterData)) : list CounterData :=
  omap (fun call : bool * CounterData =>
          if call.1 then Some call.2 else None) log.

(** The number of bins completed so far, and the number completed before
    the last removing call (0 when there has been none). *)
Definition positions (evs : list Event) : nat * nat :=
  foldl (fun (acc : nat * nat) ev =>
           match ev with
           | BinCompleted _ => (S acc.1, acc.2)
           | GetDataObject remove => (acc.1, if remove then acc.1 else acc.2)
           end) (0, 0) evs.

Definition last_removed (evs : list Event) : nat := (positions evs).2.

(** The position, among the bins completed since the last clear, of the
    first bin a call returns. *)
Definition first_returned (c : t) : nat :=
  completed c - (completed c - cursor c) `min` n_values c.

(** The ring agrees with the history of completed bins on its last
    [n_values] entries; this is what relates the circular buffer to the
    bins the counter has completed. *)
Definition ring_holds (c : t) (history : list Bin) : Prop :=
  length (ring c) = n_values c
  /\ completed c = length history
  /\ cursor c <= completed c
  /\ forall i, i < length history -> length history <= i + n_values c ->
               ring c !! (i mod n_values c) = history !! i.

(** How the removing calls of a log account for the bins they have passed:
    one segment per call, made of the bins the call found evicted and of
    the bins it returned.  The segments are, in order, the bins passed; a
    call returns at most [n] bins and finds bins evicted only when it
    returns a full ring; [size] and [dropped_bins] are the lengths of the
    two parts. *)
Definition accounts_for (n : nat) (segments : list (list Bin * list Bin))
    (passed : list Bin) (log : list (bool * CounterData)) : Prop :=
  passed = segments ≫= (fun seg : list Bin * list Bin => seg.1 ++ seg.2)
  /\ removed_bins log = segments ≫= snd
  /\ Forall (fun seg : list Bin * list Bin =>
               length seg.2 <= n /\ (seg.1 <> [] -> length seg.2 = n))
            segments
  /\ (fun out => (size out, dropped_bins out)) <$> removing log
     = (fun seg : list Bin * list Bin =>
          (uint32_t (length seg.2), uint32_t (length seg.1))) <$> segments.

End Ring.
End Counter.

(** ** Parts of FastBinning named on their own *)

Module MulHighGeneric.
Import UInt.

(** The local [carry_bit] of the generic fallback of [MulHigh]
    (Iterators.h, line 115), with the four partial products it is computed
    from. *)
Definition carry_bit (a b : Z) : Z :=
  let a_lo := uint32_t a in
  let a_hi := shr a 32 in
  let b_lo := uint32_t b in
  let b_hi := shr b 32 in
  let a_x_b_mid := mul64 a_hi b_lo in
  let b_x_a_mid := mul64 b_hi a_lo in
  let a_x_b_lo := mul64 a_lo b_lo in
  shr (add64 (add64 (uint32_t a_x_b_mid) (uint32_t b_x_a_mid))
             (shr a_x_b_lo 32)) 32.

(** The sum of line 117 without the reduction modulo [2^64] of the three
    additions. *)
Definition multhi_unbounded (a b : Z) : Z :=
  let a_lo := uint32_t a in
  let a_hi := shr a 32 in
  let b_lo := uint32_t b in
  let b_hi := shr b 32 in
  mul64 a_hi b_hi + shr (mul64 a_hi b_lo) 32 + shr (mul64 b_hi a_lo) 32
  + carry_bit a b.

End MulHighGeneric.

Module FixedPoint.

(** The amount by which the fixed-point variants exceed the quotient of
    [x] by [d], for a factor [f] and [bits] fractional bits. *)
Definition excess (bits d f x : Z) : Z :=
  (2 ^ bits * (x mod d) + x * (f * d - 2 ^ bits)) / (d * 2 ^ bits).

End FixedPoint.

(** * Facts *)

Module UIntFacts.
Import UInt.

Lemma uint64_t_small z : is_uint64 z -> uint64_t z = z.
Proof. intros H. apply Z.mod_small. exact H. Qed.

Lemma uint32_t_range z : 0 <= uint32_t z < 2 ^ 32.
Proof. apply Z.mod_pos_bound. reflexivity. Qed.

Lemma shr_div a n : 0 <= n -> shr a n = a / 2 ^ n.
Proof. intros Hn. apply Z.shiftr_div_pow2. exact Hn. Qed.

Lemma hi_lo_split a : a = shr a 32 * 2 ^ 32 + uint32_t a.
Proof.
  unfold uint32_t. rewrite shr_div by lia.
  pose proof (Z.div_mod a (2 ^ 32)). lia.
Qed.

Lemma shr32_range a : is_uint64 a -> 0 <= shr a 32 < 2 ^ 32.
Proof.
  intros [H0 H1]. rewrite shr_div by lia. split.
  - apply Z.div_pos; lia.
  - apply Z.div_lt_upper_bound; [lia|]. exact H1.
Qed.

(** A product of two 32-bit limbs does not wrap in 64 bits. *)
Lemma mul64_limbs x y :
  0 <= x < 2 ^ 32 -> 0 <= y < 2 ^ 32 ->
  mul64 x y = x * y /\ 0 <= x * y <= (2 ^ 32 - 1) * (2 ^ 32 - 1).
Proof.
  intros Hx Hy.
  assert (0 <= x * y <= (2 ^ 32 - 1) * (2 ^ 32 - 1)) as Hb by nia.
  split; [|exact Hb].
  apply uint64_t_small. unfold is_uint64. lia.
Qed.

(** Quotient and remainder by [2^32], named. *)
Lemma split32 m :
  0 <= m ->
  exists h l, m = h * 2 ^ 32 + l /\ 0 <= l < 2 ^ 32 /\ 0 <= h
              /\ shr m 32 = h /\ uint32_t m = l.
Proof.
  intros Hm. exists (m / 2 ^ 32), (m mod 2 ^ 32).
  pose proof (Z.div_mod m (2 ^ 32)) as E.
  pose proof (Z.mod_pos_bound m (2 ^ 32)) as B.
  assert (0 <= m / 2 ^ 32) by (apply Z.div_pos; lia).
  rewrite shr_div by lia. unfold uint32_t. lia.
Qed.

End UIntFacts.

Module FastBinningFacts.
Import UInt UIntFacts FastBinning.

(** *** MulHigh *)

Lemma high_word_range a b :
  is_uint64 a -> is_uint64 b -> is_uint64 ((a * b) / 2 ^ 64).
Proof.
  intros [Ha0 Ha1] [Hb0 Hb1]. split.
  - apply Z.div_pos; nia.
  - apply Z.div_lt_upper_bound; [lia|]. nia.
Qed.

Lemma MulHigh_int128_high a b :
  is_uint64 a -> is_uint64 b -> MulHigh_int128 a b = (a * b) / 2 ^ 64.
Proof.
  intros Ha Hb. pose proof (high_word_range a b Ha Hb) as Hh.
  destruct Ha as [Ha0 Ha1], Hb as [Hb0 Hb1].
  unfold MulHigh_int128, uint128_t.
  rewrite (Z.mod_small a), (Z.mod_small b) by lia.
  rewrite (Z.mod_small (a * b)) by nia.
  rewrite shr_div by lia.
  apply uint64_t_small. exact Hh.
Qed.

(** The limb decomposition: the sum of the four partial high words and of
    the carry is the high word of the product, and no addition wraps. *)
Lemma MulHigh_generic_high a b :
  is_uint64 a -> is_uint64 b -> MulHigh_generic a b = (a * b) / 2 ^ 64.
Proof.
  intros Ha Hb. pose proof (high_word_range a b Ha Hb) as Hh.
  unfold MulHigh_generic. cbv zeta.
  pose proof (hi_lo_split a) as Ea. pose proof (hi_lo_split b) as Eb.
  pose proof (shr32_range a Ha) as Hah. pose proof (shr32_range b Hb) as Hbh.
  pose proof (uint32_t_range a) as Hal. pose proof (uint32_t_range b) as Hbl.
  set (a_hi := shr a 32) in *. set (a_lo := uint32_t a) in *.
  set (b_hi := shr b 32) in *. set (b_lo := uint32_t b) in *.
  destruct (mul64_limbs a_hi b_hi Hah Hbh) as [-> Bhh].
  destruct (mul64_limbs a_hi b_lo Hah Hbl) as [-> Bhl].
  destruct (mul64_limbs b_hi a_lo Hbh Hal) as [-> Blh].
  destruct (mul64_limbs a_lo b_lo Hal Hbl) as [-> Bll].
  destruct (split32 (a_hi * b_lo)) as (h1 & l1 & E1 & Bl1 & Bh1 & -> & ->);
    [lia|].
  destruct (split32 (b_hi * a_lo)) as (h2 & l2 & E2 & Bl2 & Bh2 & -> & ->);
    [lia|].
  destruct (split32 (a_lo * b_lo)) as (h3 & l3 & E3 & Bl3 & Bh3 & -> & _);
    [lia|].
  assert (h3 < 2 ^ 32) as Bh3' by lia.
  unfold add64 at 4 5.
  rewrite (uint64_t_small (l1 + l2)) by (unfold is_uint64; lia).
  rewrite (uint64_t_small (l1 + l2 + h3)) by (unfold is_uint64; lia).
  destruct (split32 (l1 + l2 + h3)) as (hc & lc & Ec & Blc & Bhc & -> & _);
    [lia|].
  assert ((a * b) / 2 ^ 64 = a_hi * b_hi + h1 + h2 + hc) as Hq.
  { symmetry. apply (Z.div_unique_pos _ _ _ (lc * 2 ^ 32 + l3)); [lia|].
    rewrite Ea, Eb. nia. }
  rewrite Hq in Hh. destruct Hh as [_ Hh].
  unfold add64.
  rewrite (uint64_t_small (a_hi * b_hi + h1)) by (unfold is_uint64; lia).
  rewrite (uint64_t_small (a_hi * b_hi + h1 + h2)) by (unfold is_uint64; lia).
  rewrite (uint64_t_small (a_hi * b_hi + h1 + h2 + hc))
    by (unfold is_uint64; lia).
  symmetry. exact Hq.
Qed.

Lemma MulHigh_high tg a b :
  is_uint64 a -> is_uint64 b -> MulHigh tg a b = (a * b) / 2 ^ 64.
Proof.
  intros Ha Hb. destruct tg; simpl.
  - apply MulHigh_int128_high; assumption.
  - reflexivity.
  - apply MulHigh_generic_high; assumption.
Qed.

(** *** Division by multiplication with a rounded-up reciprocal *)

(** With [f * d = P + e], [0 <= e] and [x * e < P], the quotient of [x * f]
    by [P] is the quotient of [x] by [d]. *)
Lemma fixed_point_quotient P d f x :
  0 < P -> 0 < d -> 0 <= x ->
  P <= f * d -> x * (f * d - P) < P ->
  (x * f) / P = x / d.
Proof.
  intros HP Hd Hx Hle Herr.
  pose proof (Z.div_mod x d) as E.
  pose proof (Z.mod_pos_bound x d Hd) as B.
  set (q := x / d) in *. set (r := x mod d) in *.
  symmetry. apply (Z.div_unique_pos _ _ _ (x * f - P * q)); [|lia].
  assert (d * (x * f - P * q) = P * r + x * (f * d - P)) as Hk by nia.
  split; nia.
Qed.

Lemma fixed_point_exact_spec bits d max f x :
  0 <= bits -> 0 <= f -> 0 <= x <= max ->
  fixed_point_exact bits d max f = true ->
  0 < d /\ (x * f) / 2 ^ bits = x / d.
Proof.
  intros Hbits Hf Hx H. unfold fixed_point_exact in H.
  apply andb_prop in H as [H1 H2].
  apply Z.leb_le in H1. apply Z.ltb_lt in H2.
  assert (0 < 2 ^ bits) as HP by (apply Z.pow_pos_nonneg; lia).
  assert (0 < d) as Hd by nia.
  split; [exact Hd|].
  apply fixed_point_quotient; try lia.
  nia.
Qed.

(** *** The variants of [divide] under their selection conditions *)

Lemma divide_switch_exact tg fb duration :
  in_range fb = true -> divisor fb <> 0 -> selected fb = true ->
  0 <= duration <= max_duration fb ->
  divide_switch tg (getMode fb) fb duration = Some (duration / divisor fb).
Proof.
  unfold in_range, selected, getMode. intros Hr Hd Hs Hx.
  repeat (apply andb_prop in Hr as [Hr ?]).
  repeat match goal with
         | H : (_ <=? _) = true |- _ => apply Z.leb_le in H
         | H : (_ <? _) = true |- _ => apply Z.ltb_lt in H
         end.
  destruct (mode fb) eqn:Em; cbn [divide_switch].
  - (* ConstZero *)
    apply Z.ltb_lt in Hs. rewrite Z.div_small by lia. reflexivity.
  - (* Dividend *)
    apply Z.eqb_eq in Hs. rewrite Hs, Z.div_1_r. reflexivity.
  - (* PowerOfTwo *)
    rewrite (proj1 (andb_prop _ _ Hs)).
    apply andb_prop in Hs as [Hs Hp]. apply andb_prop in Hs as [Hs0 Hs1].
    apply Z.leb_le in Hs0. apply Z.eqb_eq in Hp.
    rewrite shr_div by lia. rewrite Hp. reflexivity.
  - (* FixedPoint_32 *)
    apply andb_prop in Hs as [Hs He]. apply andb_prop in Hs as [Hf Hm].
    apply Z.ltb_lt in Hf, Hm.
    destruct (fixed_point_exact_spec 32 (divisor fb) (max_duration fb)
                (factor fb) duration ltac:(lia) ltac:(lia) Hx He) as [_ Hq].
    unfold mul64. rewrite uint64_t_small by (unfold is_uint64; nia).
    rewrite shr_div by lia. rewrite Hq. reflexivity.
  - (* FixedPoint_64 *)
    apply andb_prop in Hs as [Hf He].
    destruct (fixed_point_exact_spec 64 (divisor fb) (max_duration fb)
                (factor fb) duration ltac:(lia) ltac:(lia) Hx He) as [_ Hq].
    rewrite MulHigh_high by (unfold is_uint64; lia).
    rewrite Hq. reflexivity.
  - (* Divide_32 *)
    apply andb_prop in Hs as [Hd32 Hm32]. apply Z.ltb_lt in Hd32, Hm32.
    unfold uint32_t. rewrite !Z.mod_small by lia.
    unfold udiv. destruct (Z.eqb_spec (divisor fb) 0); [contradiction|].
    reflexivity.
  - (* Divide_64 *)
    unfold udiv. destruct (Z.eqb_spec (divisor fb) 0); [contradiction|].
    reflexivity.
Qed.

Lemma divide_of_switch tg fb duration :
  divisor fb <> 0 -> duration <= max_duration fb ->
  divide_switch tg (getMode fb) fb duration = Some (duration / divisor fb) ->
  divide tg (getMode fb) fb duration = Returns (duration / divisor fb).
Proof.
  intros Hd Hx Hsw. unfold divide.
  rewrite (proj2 (Z.leb_le _ _) Hx). cbn [negb].
  unfold getMode in *. rewrite bool_decide_eq_true_2 by reflexivity.
  cbn [negb]. rewrite Hsw. unfold udiv.
  destruct (Z.eqb_spec (divisor fb) 0); [contradiction|].
  rewrite Z.eqb_refl. reflexivity.
Qed.

(** *** The constructor establishes the selection condition *)

Lemma reciprocal_nonneg bits d : 0 <= bits -> 0 < d -> 0 < reciprocal bits d.
Proof.
  intros Hb Hd. unfold reciprocal.
  assert (0 <= 2 ^ bits / d); [|lia].
  apply Z.div_pos; [|exact Hd]. apply Z.pow_nonneg. lia.
Qed.

Lemma log2_uint64 d : 0 < d < 2 ^ 64 -> 0 <= Z.log2 d < 64.
Proof.
  intros [H0 H1]. split; [apply Z.log2_nonneg|].
  apply Z.log2_lt_pow2; assumption.
Qed.

Lemma FastBinning_members d m :
  divisor (FastBinning d m) = d /\ max_duration (FastBinning d m) = m.
Proof.
  unfold FastBinning. cbv zeta.
  repeat match goal with
         | |- context [if ?c then _ else _] => destruct c
         end; split; reflexivity.
Qed.

Lemma FastBinning_selected d m :
  0 < d < 2 ^ 64 -> 0 <= m < 2 ^ 64 ->
  in_range (FastBinning d m) = true /\ selected (FastBinning d m) = true.
Proof.
  intros Hd Hm.
  pose proof (reciprocal_nonneg 32 d ltac:(lia) ltac:(lia)) as H32.
  pose proof (reciprocal_nonneg 64 d ltac:(lia) ltac:(lia)) as H64.
  pose proof (log2_uint64 d Hd) as Hlog.
  assert (forall f s md,
             0 <= f < 2 ^ 64 -> 0 <= s < 64 ->
             in_range (Build d m f s md) = true) as Hrange.
  { intros f s md Hf Hs. unfold in_range. cbn.
    repeat (apply andb_true_intro; split);
      first [apply Z.leb_le; lia | apply Z.ltb_lt; lia]. }
  unfold FastBinning. cbv zeta.
  destruct (m <? d) eqn:E0.
  { split; [apply Hrange; lia | exact E0]. }
  destruct (d =? 1) eqn:E1.
  { split; [apply Hrange; lia | exact E1]. }
  destruct (d =? 2 ^ Z.log2 d) eqn:E2.
  { split; [apply Hrange; lia|]. unfold selected. cbn.
    rewrite E2. rewrite (proj2 (Z.leb_le _ _) (proj1 Hlog)).
    rewrite (proj2 (Z.ltb_lt _ _) (proj2 Hlog)). reflexivity. }
  destruct ((reciprocal 32 d <? 2 ^ 32) && (m * reciprocal 32 d <? 2 ^ 64)
            && fixed_point_exact 32 d m (reciprocal 32 d)) eqn:E3.
  { split; [|exact E3].
    apply andb_prop in E3 as [E3 _]. apply andb_prop in E3 as [E3 _].
    apply Z.ltb_lt in E3. apply Hrange; lia. }
  destruct ((reciprocal 64 d <? 2 ^ 64)
            && fixed_point_exact 64 d m (reciprocal 64 d)) eqn:E4.
  { split; [|exact E4].
    apply andb_prop in E4 as [E4 _]. apply Z.ltb_lt in E4.
    apply Hrange; lia. }
  destruct ((d <? 2 ^ 32) && (m <? 2 ^ 32)) eqn:E5.
  { split; [apply Hrange; lia | exact E5]. }
  split; [apply Hrange; lia | reflexivity].
Qed.

(** The rows of the table that do not involve the factor, as equivalences. *)
Lemma FastBinning_ConstZero d m :
  getMode (FastBinning d m) = ConstZero <-> m < d.
Proof.
  unfold FastBinning, getMode. cbv zeta.
  destruct (Z.ltb_spec m d); [tauto|].
  repeat match goal with
         | |- context [if ?c then _ else _] => destruct c
         end; cbn; split; (discriminate || lia).
Qed.

Lemma FastBinning_Dividend d m :
  getMode (FastBinning d m) = Dividend <-> d <= m /\ d = 1.
Proof.
  unfold FastBinning, getMode. cbv zeta.
  destruct (Z.ltb_spec m d); [cbn; split; [discriminate | lia]|].
  destruct (Z.eqb_spec d 1); [cbn; tauto|].
  repeat match goal with
         | |- context [if ?c then _ else _] => destruct c
         end; cbn; split; (discriminate || lia).
Qed.

Lemma FastBinning_PowerOfTwo d m :
  getMode (FastBinning d m) = PowerOfTwo
  <-> d <= m /\ d <> 1 /\ d = 2 ^ Z.log2 d.
Proof.
  unfold FastBinning, getMode. cbv zeta.
  destruct (Z.ltb_spec m d); [cbn; split; [discriminate | lia]|].
  destruct (Z.eqb_spec d 1); [cbn; split; [discriminate | lia]|].
  destruct (Z.eqb_spec d (2 ^ Z.log2 d)); [cbn; tauto|].
  repeat match goal with
         | |- context [if ?c then _ else _] => destruct c
         end; cbn; split; (discriminate || tauto).
Qed.

(** *** Specification of [divide], of the constructor and of the macro *)

(** C1. For every FastBinning object whose data members satisfy the
    selection condition of its stored variant, and every duration in
    [[0, max_duration]], [divide] of that variant passes its three debug
    assertions and returns the exact quotient [duration / divisor]; the
    release build returns the same value.  This holds for each of the seven
    variants and on each of the three [MulHigh] targets. *)
Theorem divide_exact tg fb duration :
  in_range fb = true -> divisor fb <> 0 -> selected fb = true ->
  0 <= duration <= max_duration fb ->
  divide tg (getMode fb) fb duration = Returns (duration / divisor fb)
  /\ divide_release tg (getMode fb) fb duration
     = Some (duration / divisor fb).
Proof.
  intros Hr Hd Hs Hx.
  pose proof (divide_switch_exact tg fb duration Hr Hd Hs Hx) as Hsw.
  split; [|exact Hsw].
  apply divide_of_switch; [exact Hd | lia | exact Hsw].
Qed.

Lemma divide_exact_witness :
  let fb := FastBinning 1000 (10 ^ 12) in
  divide GenericTarget (getMode fb) fb 123456789012
  = Returns (123456789012 / divisor fb)
  /\ divide_release GenericTarget (getMode fb) fb 123456789012
     = Some (123456789012 / divisor fb).
Proof.
  intros fb.
  apply (divide_exact GenericTarget fb 123456789012).
  - reflexivity.
  - discriminate.
  - reflexivity.
  - unfold fb. vm_compute. split; discriminate.
Defined.

(** The same for the objects the constructor builds. *)
Corollary divide_constructed tg d m duration :
  0 < d < 2 ^ 64 -> 0 <= m < 2 ^ 64 -> 0 <= duration <= m ->
  divide tg (getMode (FastBinning d m)) (FastBinning d m) duration
  = Returns (duration / d).
Proof.
  intros Hd Hm Hx.
  destruct (FastBinning_selected d m Hd Hm) as [Hr Hs].
  destruct (FastBinning_members d m) as [Ed Em].
  pose proof (divide_switch_exact tg (FastBinning d m) duration) as Hsw.
  rewrite Ed, Em in Hsw.
  pose proof (divide_of_switch tg (FastBinning d m) duration) as Hdv.
  rewrite Ed, Em in Hdv.
  apply Hdv; [lia | lia |].
  apply Hsw; [exact Hr | lia | exact Hs | exact Hx].
Qed.

(** One object per variant, each satisfying its selection condition. *)
Example selected_each_variant :
  Forall (fun fb => in_range fb = true /\ selected fb = true)
    [ Build 7 5 0 0 ConstZero; Build 1 5 0 0 Dividend;
      Build 8 100 0 3 PowerOfTwo; Build 3 1000 1431655766 0 FixedPoint_32;
      Build 1000 (10 ^ 12) 18446744073709552 0 FixedPoint_64;
      Build 7 100 0 0 Divide_32; Build 7 (2 ^ 63) 0 0 Divide_64 ].
Proof. repeat constructor. Qed.

(** [divide] evaluated on them, in a debug build of the generic target. *)
Example divide_each_variant :
  (fun fb : t => divide GenericTarget (getMode fb) fb (max_duration fb))
    <$> [ Build 7 5 0 0 ConstZero; Build 1 5 0 0 Dividend;
          Build 8 100 0 3 PowerOfTwo; Build 3 1000 1431655766 0 FixedPoint_32;
          Build 1000 (10 ^ 12) 18446744073709552 0 FixedPoint_64;
          Build 7 100 0 0 Divide_32; Build 7 (2 ^ 63) 0 0 Divide_64 ]
  = [ Returns 0; Returns 5; Returns 12; Returns 333; Returns (10 ^ 9);
      Returns 14; Returns 1317624576693539401 ].
Proof. vm_compute. reflexivity. Qed.

(** A mode other than the stored one trips the second assertion. *)
Example divide_wrong_mode :
  divide HasInt128 Dividend (FastBinning 1000 (10 ^ 12)) 5
  = AssertionFailed assert_mode.
Proof. vm_compute. reflexivity. Qed.

(** Without the exactness test the FixedPoint_32 row would not be exact:
    no 32-bit factor divides by 1000 over the whole of [[0, 10^12]]. *)
Lemma FixedPoint_32_inexact_1000 f :
  0 <= f < 2 ^ 32 ->
  ~ (forall x, 0 <= x <= 10 ^ 12 -> shr (mul64 x f) 32 = x / 1000).
Proof.
  intros Hf Hall.
  pose proof (Hall 1000 ltac:(lia)) as H1.
  pose proof (Hall (10 ^ 12 - 1) ltac:(lia)) as H2.
  unfold mul64 in H1, H2.
  rewrite uint64_t_small in H1 by (unfold is_uint64; lia).
  rewrite shr_div in H1, H2 by lia.
  change (1000 / 1000) with 1 in H1.
  change ((10 ^ 12 - 1) / 1000) with 999999999 in H2.
  assert (2 ^ 32 <= 1000 * f) as Hlow.
  { destruct (Z.le_gt_cases (2 ^ 32) (1000 * f)) as [|Hlt]; [assumption|].
    rewrite Z.div_small in H1 by lia. discriminate. }
  assert (1000 * f < 2 * 2 ^ 32) as Hup.
  { destruct (Z.lt_ge_cases (1000 * f) (2 * 2 ^ 32)) as [|Hge]; [assumption|].
    assert (2 <= 1000 * f / 2 ^ 32); [|lia].
    apply Z.div_le_lower_bound; lia. }
  rewrite uint64_t_small in H2 by (unfold is_uint64; lia).
  assert (1000000000 <= (10 ^ 12 - 1) * f / 2 ^ 32); [|lia].
  apply Z.div_le_lower_bound; lia.
Qed.

(** The executable constructor on the four inputs of the spec. *)
Example FastBinning_four_inputs :
  getMode (FastBinning 1 (10 ^ 12)) = Dividend
  /\ getMode (FastBinning 1024 (10 ^ 12)) = PowerOfTwo
  /\ getMode (FastBinning 1000 (10 ^ 12)) = FixedPoint_64
  /\ getMode (FastBinning (10 ^ 15) (10 ^ 12)) = ConstZero.
Proof. repeat split; vm_compute; reflexivity. Qed.

(** C9. On 64-bit unsigned operands the generic fallback of [MulHigh]
    returns the upper 64 bits of the 128-bit product, and so agrees with
    the [__int128] and [__umulh] branches. *)
Theorem MulHigh_generic_upper_bits a b :
  is_uint64 a -> is_uint64 b ->
  MulHigh_generic a b = (a * b) / 2 ^ 64
  /\ MulHigh_generic a b = MulHigh_int128 a b
  /\ MulHigh_generic a b = umulh a b.
Proof.
  intros Ha Hb.
  rewrite (MulHigh_int128_high a b Ha Hb).
  rewrite (MulHigh_generic_high a b Ha Hb).
  unfold umulh. repeat split.
Qed.

Lemma MulHigh_generic_upper_bits_witness :
  let a := 2 ^ 64 - 1 in
  let b := 2 ^ 64 - 1 in
  MulHigh_generic a b = (a * b) / 2 ^ 64
  /\ MulHigh_generic a b = MulHigh_int128 a b
  /\ MulHigh_generic a b = umulh a b.
Proof.
  intros a b.
  apply (MulHigh_generic_upper_bits a b); unfold is_uint64, a, b; lia.
Defined.

(** The carry of the middle limbs can be 2, not only 0 or 1: here the
    partial high words sum to 1 and the carry adds 2. *)
Example MulHigh_generic_carry_two :
  MulHigh_generic (2 ^ 33 - 1) (2 ^ 33 - 1) = 3.
Proof. vm_compute. reflexivity. Qed.

(** C10. The macro calls the instantiation of [fun_name] for the stored
    mode.  Hence every [divide] it dispatches on the same binner (as
    [FlimAbstract::process_tags<bin_mode>] does on its member [binner]) is
    instantiated with [getMode binner], and [assert(mode == this->mode)]
    holds in each such call, whichever of the seven modes is stored. *)
Theorem BINNING_TEMPLATE_HELPER_mode tg (binner : t) (durations : list Z) :
  (forall (A : Type) (fun_name : Mode -> A),
      BINNING_TEMPLATE_HELPER fun_name binner = fun_name (getMode binner))
  /\ Forall (fun out => out <> AssertionFailed assert_mode)
       (BINNING_TEMPLATE_HELPER
          (fun bin_mode => List.map (divide tg bin_mode binner) durations)
          binner).
Proof.
  assert (forall (A : Type) (fun_name : Mode -> A),
             BINNING_TEMPLATE_HELPER fun_name binner
             = fun_name (getMode binner)) as Hdispatch.
  { intros A fun_name. unfold BINNING_TEMPLATE_HELPER.
    destruct (getMode binner); reflexivity. }
  split; [exact Hdispatch|].
  rewrite Hdispatch. apply Forall_forall. intros out Hin.
  apply list_elem_of_In, in_map_iff in Hin as (duration & <- & _).
  unfold divide, getMode.
  destruct (negb (duration <=? max_duration binner)); [discriminate|].
  rewrite bool_decide_eq_true_2 by reflexivity. cbn [negb].
  destruct (divide_switch tg (mode binner) binner duration); [|discriminate].
  destruct (udiv duration (divisor binner)); [|discriminate].
  destruct (_ =? _); discriminate.
Qed.

End FastBinningFacts.

(** ** Counter ring *)

Module CounterFacts.
Import Counter.
Local Open Scope nat_scope.

Lemma mod_distinct n i j : 0 < n -> i < j -> j < i + n -> i mod n <> j mod n.
Proof.
  intros Hn Hij Hjn Heq.
  pose proof (Nat.div_mod_eq i n) as Ei.
  pose proof (Nat.div_mod_eq j n) as Ej.
  rewrite <- Heq in Ej.
  assert (j - i = n * (j / n - i / n)) as Hk by nia.
  destruct (j / n - i / n) as [|k]; nia.
Qed.

Section Ring.
Context {Bin : Type} `{!Inhabited Bin}.
Variable in_overflow : Bin -> bool.

Implicit Types (c : t (Bin := Bin)) (history : list Bin).
Implicit Types (log : list (bool * CounterData (Bin := Bin))).
Implicit Types (segments : list (list Bin * list Bin)).

(** *** The ring *)

Lemma clear_impl_holds c : ring_holds (clear_impl c) [].
Proof.
  unfold ring_holds, clear_impl. cbn.
  rewrite length_replicate. repeat split; lia.
Qed.

Lemma rotate_holds c history b :
  ring_holds c history -> ring_holds (rotate b c) (history ++ [b]).
Proof.
  intros (Hlen & Hc & Hcur & Hring). unfold ring_holds, rotate. cbn.
  rewrite length_insert, length_app. cbn.
  repeat split; try lia.
  intros i Hi Hwin.
  assert (0 < n_values c) as Hn by lia.
  destruct (decide (i = length history)) as [->|Hne].
  - rewrite Hc, list_lookup_insert_eq.
    + rewrite lookup_app_r by lia. rewrite Nat.sub_diag. reflexivity.
    + rewrite Hlen. apply Nat.mod_upper_bound. lia.
  - rewrite list_lookup_insert_ne.
    + rewrite lookup_app_l by lia. apply Hring; lia.
    + rewrite Hc. intros Heq. symmetry in Heq. revert Heq.
      apply mod_distinct; lia.
Qed.

Lemma getDataObject_data remove c history :
  ring_holds c history ->
  data (getDataObject in_overflow remove c).1
  = drop (first_returned c) history.
Proof.
  intros (Hlen & Hc & Hcur & Hring).
  unfold getDataObject, first_returned. cbn.
  set (count := (completed c - cursor c) `min` n_values c).
  set (first := completed c - count).
  assert (count <= n_values c) by lia.
  assert (first + count = length history) by lia.
  apply list_eq. intros k.
  rewrite list_lookup_fmap, lookup_drop.
  destruct (decide (k < count)) as [Hk|Hk].
  - rewrite lookup_seq_lt by exact Hk. cbn.
    destruct (lookup_lt_is_Some_2 history (first + k) ltac:(lia)) as [x Hx].
    rewrite Hx. f_equal. apply list_lookup_total_correct.
    rewrite Hring by lia. exact Hx.
  - rewrite (lookup_ge_None_2 (seq 0 count)) by (rewrite length_seq; lia).
    rewrite lookup_ge_None_2 by lia. reflexivity.
Qed.

Lemma getDataObject_counts remove c :
  let out := (getDataObject in_overflow remove c).1 in
  length (data out) = (completed c - cursor c) `min` n_values c
  /\ size out = uint32_t (length (data out))
  /\ dropped_bins out
     = uint32_t (completed c - cursor c - length (data out)).
Proof.
  cbn. rewrite length_fmap, length_seq. repeat split.
Qed.

Lemma getDataObject_state remove c :
  (getDataObject in_overflow remove c).2
  = if remove then Build (n_values c) (ring c) (completed c) (completed c)
    else c.
Proof. reflexivity. Qed.

Lemma getDataObject_holds remove c history :
  ring_holds c history ->
  ring_holds (getDataObject in_overflow remove c).2 history.
Proof.
  intros Hinv. rewrite getDataObject_state. destruct remove; [|exact Hinv].
  destruct Hinv as (Hlen & Hc & Hcur & Hring).
  unfold ring_holds. cbn. repeat split; try lia. exact Hring.
Qed.

(** The bins between the read-cursor and the first returned bin are the
    ones a call finds evicted. *)
Lemma unread_split c history :
  ring_holds c history ->
  history
  = take (cursor c) history
    ++ take (first_returned c - cursor c) (drop (cursor c) history)
    ++ drop (first_returned c) history.
Proof.
  intros (Hlen & Hc & Hcur & Hring). unfold first_returned.
  set (first := completed c - _).
  assert (cursor c <= first) as Hle by (unfold first; lia).
  rewrite <- (take_drop (cursor c) history) at 1. f_equal.
  rewrite <- (take_drop (first - cursor c) (drop (cursor c) history)) at 1.
  f_equal. rewrite drop_drop. f_equal. lia.
Qed.

(** *** Runs *)

Lemma run_snoc c evs ev :
  run in_overflow c (evs ++ [ev]) = step in_overflow (run in_overflow c evs) ev.
Proof. unfold run. apply foldl_snoc. Qed.

Lemma completed_bins_snoc (evs : list (Event (Bin := Bin))) ev :
  completed_bins (evs ++ [ev])
  = completed_bins evs
    ++ match ev with BinCompleted b => [b] | GetDataObject _ => [] end.
Proof.
  unfold completed_bins. rewrite omap_app. destruct ev; reflexivity.
Qed.

Lemma positions_snoc (evs : list (Event (Bin := Bin))) ev :
  positions (evs ++ [ev])
  = match ev with
    | BinCompleted _ => (S (positions evs).1, (positions evs).2)
    | GetDataObject remove =>
        ((positions evs).1,
         if remove then (positions evs).1 else (positions evs).2)
    end.
Proof. unfold positions. rewrite foldl_snoc. reflexivity. Qed.

Lemma positions_completed (evs : list (Event (Bin := Bin))) :
  (positions evs).1 = length (completed_bins evs).
Proof.
  induction evs as [|ev evs IH] using rev_ind; [reflexivity|].
  rewrite positions_snoc, completed_bins_snoc, length_app.
  destruct ev; cbn; lia.
Qed.

Lemma removed_bins_snoc log remove (out : CounterData) :
  removed_bins (log ++ [(remove, out)])
  = removed_bins log ++ (if remove then data out else []).
Proof.
  unfold removed_bins. rewrite bind_app. cbn.
  destruct remove; cbn; rewrite ?app_nil_r; reflexivity.
Qed.

Lemma removing_snoc log remove (out : CounterData) :
  removing (log ++ [(remove, out)])
  = removing log ++ (if remove then [out] else []).
Proof.
  unfold removing. rewrite omap_app. destruct remove; reflexivity.
Qed.

Lemma accounts_for_snoc n segments passed log evicted (out : CounterData) :
  accounts_for n segments passed log ->
  length (data out) <= n ->
  (evicted <> [] -> length (data out) = n) ->
  size out = uint32_t (length (data out)) ->
  dropped_bins out = uint32_t (length evicted) ->
  accounts_for n (segments ++ [(evicted, data out)])
    (passed ++ evicted ++ data out) (log ++ [(true, out)]).
Proof.
  intros (Hpassed & Hremoved & Hfull & Hcounts) Hle Hpressure Hsize Hdropped.
  unfold accounts_for.
  rewrite !bind_app, removed_bins_snoc, removing_snoc, !fmap_app.
  cbn. rewrite !app_nil_r. repeat split.
  - rewrite Hpassed. reflexivity.
  - rewrite Hremoved. reflexivity.
  - apply Forall_app. split; [exact Hfull|].
    constructor; [|constructor]. split; assumption.
  - rewrite Hcounts, Hsize, Hdropped. reflexivity.
Qed.

(** The segments as multisets: the bins passed are the bins returned
    together with the bins evicted. *)
Lemma segments_Permutation segments :
  segments ≫= (fun seg : list Bin * list Bin => seg.1 ++ seg.2)
  ≡ₚ (segments ≫= snd) ++ (segments ≫= fst).
Proof.
  induction segments as [|[evicted returned] segments IH]; [reflexivity|].
  cbn. rewrite IH. rewrite (comm (++) evicted returned).
  rewrite <- !(assoc_L (++)). f_equiv.
  apply Permutation_app_swap_app.
Qed.

Lemma run_holds c0 evs :
  let res := run in_overflow (clear_impl c0) evs in
  n_values res.2 = n_values c0
  /\ ring_holds res.2 (completed_bins evs)
  /\ cursor res.2 = last_removed evs
  /\ exists segments,
       accounts_for (n_values c0) segments
         (take (cursor res.2) (completed_bins evs)) res.1.
Proof.
  induction evs as [|ev evs IH] using rev_ind.
  - cbn. split; [reflexivity|]. split; [apply clear_impl_holds|].
    split; [reflexivity|]. exists []. repeat split. constructor.
  - destruct IH as (Hn & Hring & Hcur & segments & Hacc).
    cbn zeta. unfold last_removed in *.
    rewrite run_snoc, completed_bins_snoc, positions_snoc.
    pose proof (positions_completed evs) as Hpos.
    destruct (run in_overflow (clear_impl c0) evs) as [log c].
    cbn [fst snd] in *.
    pose proof Hring as (_ & Hc & Hle & _).
    destruct ev as [b|remove]; cbn [step fst snd].
    + (* a bin completes *)
      split; [exact Hn|]. split; [apply rotate_holds; exact Hring|].
      split; [exact Hcur|]. exists segments. cbn [rotate cursor].
      rewrite take_app_le by lia. exact Hacc.
    + (* a call of getDataObject *)
      rewrite app_nil_r.
      pose proof (getDataObject_data remove c _ Hring) as Hdata.
      pose proof (getDataObject_holds remove c _ Hring) as Hring'.
      pose proof (getDataObject_counts remove c) as (Hlen & Hsize & Hdrop).
      pose proof (getDataObject_state remove c) as Hstate.
      destruct (getDataObject in_overflow remove c) as [out c'].
      cbn [fst snd] in *. subst c'.
      destruct remove; cbn [n_values cursor].
      * (* removing: the cursor moves to the end of the history *)
        split; [exact Hn|]. split; [exact Hring'|].
        split; [lia|].
        remember (take (first_returned c - cursor c)
                    (drop (cursor c) (completed_bins evs))) as gone eqn:Egone.
        assert (completed_bins evs
                = take (cursor c) (completed_bins evs) ++ gone ++ data out)
          as Hsplit.
        { rewrite Hdata, Egone. apply unread_split. exact Hring. }
        assert (length gone = completed c - cursor c - length (data out))
          as Hgone.
        { rewrite Egone, length_take, length_drop.
          unfold first_returned. lia. }
        exists (segments ++ [(gone, data out)]).
        rewrite Hc, firstn_all. rewrite Hsplit at 1.
        apply accounts_for_snoc; [exact Hacc | lia | | exact Hsize |].
        -- intros Hne.
           destruct (decide (length gone = 0)) as [Hz|Hz]; [|lia].
           exfalso. apply Hne. apply length_zero_iff_nil. exact Hz.
        -- rewrite Hdrop, Hgone. reflexivity.
      * (* not removing: nothing changes but the log *)
        split; [exact Hn|]. split; [exact Hring|]. split; [exact Hcur|].
        exists segments. destruct Hacc as (H1 & H2 & H3 & H4).
        unfold accounts_for.
        rewrite removed_bins_snoc, removing_snoc, !app_nil_r.
        repeat split; assumption.
Qed.

(** C3. From a cleared counter, after any sequence of completed bins and
    calls of [getDataObject]:
    the read-cursor stands at the last removing call;
    the bins completed up to there are, in order, one segment per removing
    call, made of the bins that call found evicted followed by the bins it
    returned, so every one of them is either returned by exactly one call
    or evicted, and as multisets they are the returned bins together with
    the evicted ones;
    a call returns at most [n_values] bins and finds bins evicted only when
    it returns a full ring of [n_values], and its [size] and [dropped_bins]
    are the numbers of bins returned and evicted;
    the next call, removing or not, returns exactly the bins completed
    after the last removing call that are among the [n_values] most recent
    ones, so none that was returned before. *)
Theorem getDataObject_exactly_once c0 evs :
  let n := n_values c0 in
  let res := run in_overflow (clear_impl c0) evs in
  let history := completed_bins evs in
  let k := cursor res.2 in
  k = last_removed evs
  /\ (forall evs', evs = evs' ++ [GetDataObject true] -> k = length history)
  /\ (exists segments : list (list Bin * list Bin),
         take k history
         = segments ≫= (fun seg : list Bin * list Bin => seg.1 ++ seg.2)
         /\ removed_bins res.1 = segments ≫= snd
         /\ take k history ≡ₚ removed_bins res.1 ++ (segments ≫= fst)
         /\ Forall (fun seg : list Bin * list Bin =>
                      length seg.2 <= n /\ (seg.1 <> [] -> length seg.2 = n))
                   segments
         /\ (fun out => (size out, dropped_bins out)) <$> removing res.1
            = (fun seg : list Bin * list Bin =>
                 (uint32_t (length seg.2), uint32_t (length seg.1)))
                <$> segments)
  /\ (forall remove,
         let out := (getDataObject in_overflow remove res.2).1 in
         data out = drop (k `max` (length history - n)) history
         /\ size out = uint32_t (length (data out))
         /\ dropped_bins out
            = uint32_t (length history - k - length (data out))).
Proof.
  intros n res history k.
  destruct (run_holds c0 evs) as (Hn & Hring & Hcur & segments & Hacc).
  fold res in Hn, Hring, Hcur, Hacc. fold history in Hring, Hacc.
  fold k in Hcur, Hacc. fold n in Hacc.
  pose proof Hring as (_ & Hc & Hle & _). fold k in Hle.
  split; [exact Hcur|]. split; [|split].
  - intros evs' Hevs. rewrite Hcur. unfold history, last_removed.
    rewrite Hevs, positions_snoc, completed_bins_snoc, app_nil_r.
    cbn. apply positions_completed.
  - exists segments. destruct Hacc as (H1 & H2 & H3 & H4).
    split; [exact H1|]. split; [exact H2|]. split; [|split; assumption].
    rewrite H1, H2. apply segments_Permutation.
  - intros remove. cbn zeta.
    pose proof (getDataObject_counts remove res.2) as (Hlen & Hsize & Hdrop).
    cbn zeta in Hlen, Hsize, Hdrop.
    rewrite (getDataObject_data remove _ _ Hring).
    rewrite (getDataObject_data remove _ _ Hring) in Hlen, Hsize, Hdrop.
    split; [|split].
    + f_equal. unfold first_returned. fold k. rewrite Hn. fold n. lia.
    + exact Hsize.
    + rewrite Hdrop. fold k. rewrite Hc. reflexivity.
Qed.

End Ring.

(** A ring of two bins: of three unread bins the oldest is evicted, and the
    second call returns only the bin completed since the first. *)
Example getDataObject_ring_of_two :
  let evs := [BinCompleted 1; BinCompleted 2; BinCompleted 3;
              GetDataObject true; BinCompleted 4; GetDataObject true] in
  let res := run (fun _ => false) (clear_impl (Build 2 [] 0 0)) evs in
  (fun call : bool * CounterData => (size call.2, dropped_bins call.2, data call.2))
    <$> res.1
  = [(2%N, 1%N, [2; 3]); (1%N, 0%N, [4])].
Proof. vm_compute. reflexivity. Qed.

(** A call that does not remove leaves the bins for the next call. *)
Example getDataObject_without_remove :
  let evs := [BinCompleted 1; GetDataObject false; BinCompleted 2;
              GetDataObject true; GetDataObject true] in
  let res := run (fun _ => false) (clear_impl (Build 4 [] 0 0)) evs in
  (fun call : bool * CounterData => (call.1, data call.2)) <$> res.1
  = [(false, [1]); (true, [1; 2]); (true, [])].
Proof. vm_compute. reflexivity. Qed.

End CounterFacts.

(** ** More on FastBinning: outcomes, bounds and error of the variants *)

Module FastBinningOutcomes.
Import UInt UIntFacts FastBinning FastBinningFacts.

Lemma udiv_Some a b q : udiv a b = Some q <-> b <> 0 /\ q = a / b.
Proof.
  unfold udiv. destruct (Z.eqb_spec b 0) as [->|Hb]; split.
  - discriminate.
  - intros [H _]. contradiction.
  - intros [= <-]. split; [exact Hb | reflexivity].
  - intros [_ ->]. reflexivity.
Qed.

Lemma udiv_None a b : udiv a b = None <-> b = 0.
Proof.
  unfold udiv. destruct (Z.eqb_spec b 0) as [->|Hb]; split;
    try discriminate; try reflexivity. contradiction.
Qed.

(** The path on which a debug build of [divide] returns, with the value
    the release build has on it. *)
Lemma divide_returns_iff tg m fb duration out :
  divide tg m fb duration = Returns out
  <-> duration <= max_duration fb /\ m = mode fb /\ divisor fb <> 0
      /\ out = duration / divisor fb
      /\ divide_release tg m fb duration = Some out.
Proof.
  unfold divide, divide_release.
  destruct (Z.leb_spec duration (max_duration fb)) as [Hle|Hgt]; cbn [negb].
  2: { split; [discriminate | intros [H _]; lia]. }
  case_bool_decide as Hm; cbn [negb].
  2: { split; [discriminate | intros (_ & H & _); contradiction]. }
  destruct (divide_switch tg m fb duration) as [o|].
  2: { split; [discriminate | intros (_ & _ & _ & _ & H); discriminate]. }
  destruct (udiv duration (divisor fb)) as [q|] eqn:Hq.
  - apply udiv_Some in Hq as [Hd ->].
    destruct (Z.eqb_spec o (duration / divisor fb)) as [->|Hne]; split.
    + intros [= <-]. repeat split; assumption.
    + intros (_ & _ & _ & -> & _). reflexivity.
    + discriminate.
    + intros (_ & _ & _ & -> & [= H]). contradiction.
  - apply udiv_None in Hq.
    split; [discriminate | intros (_ & _ & H & _); contradiction].
Qed.

(** The two assertions at the entry of [divide]: a duration above
    [max_duration] fails the first one whatever the template mode is, and a
    template mode other than the stored one fails the second one exactly
    for the durations within [max_duration]. *)
Lemma divide_entry_assertions tg m fb duration :
  (divide tg m fb duration = AssertionFailed assert_duration_le_max
   <-> max_duration fb < duration)
  /\ (divide tg m fb duration = AssertionFailed assert_mode
      <-> duration <= max_duration fb /\ m <> mode fb).
Proof.
  unfold divide.
  destruct (Z.leb_spec duration (max_duration fb)) as [Hle|Hgt]; cbn [negb].
  2: { split; split; try (intros _; try reflexivity; exact Hgt);
       [discriminate | intros [H _]; lia]. }
  case_bool_decide as Hm; cbn [negb].
  2: { split; split; try discriminate; try lia; intros _;
       [split; assumption | reflexivity]. }
  destruct (divide_switch tg m fb duration) as [o|];
    [destruct (udiv duration (divisor fb)) as [q|];
       [destruct (o =? q)|]|];
    (split; split; try discriminate; try lia; intros [_ H]; contradiction).
Qed.

(** The branches of the switch that are undefined. *)
Lemma divide_release_undefined_iff tg m fb duration :
  divide_release tg m fb duration = None
  <-> (m = PowerOfTwo /\ ~ (0 <= bits_shift fb < 64))
      \/ (m = Divide_32 /\ uint32_t (divisor fb) = 0)
      \/ (m = Divide_64 /\ divisor fb = 0).
Proof.
  unfold divide_release. destruct m; cbn [divide_switch].
  1, 2, 4, 5: split; [discriminate|];
    intros [[H _]|[[H _]|[H _]]]; discriminate H.
  - destruct (Z.leb_spec 0 (bits_shift fb)) as [Ha|Ha],
             (Z.ltb_spec (bits_shift fb) 64) as [Hb|Hb];
      cbn [andb]; split;
      try discriminate; try (intros _; left; split; [reflexivity | lia]).
    all: intros [[_ H]|[[H _]|[H _]]];
      first [reflexivity | lia | discriminate H].
  - rewrite udiv_None. split.
    + intros H. right. left. split; [reflexivity | exact H].
    + intros [[H _]|[[_ H]|[H _]]]; try discriminate H. exact H.
  - rewrite udiv_None. split.
    + intros H. right. right. split; [reflexivity | exact H].
    + intros [[H _]|[[H _]|[_ H]]]; try discriminate H. exact H.
Qed.

(** X3. FixedPoint_32 and Divide_32 return values below [2^32] on every
    object and duration, and Divide_32 reads only the low 32 bits of the
    duration; so in a debug build neither of them returns for a duration
    whose quotient by the divisor is [2^32] or more. *)
Theorem narrow_variants_below_2_32 tg fb duration :
  (exists out, divide_release tg FixedPoint_32 fb duration = Some out
               /\ 0 <= out < 2 ^ 32)
  /\ (forall out, divide_release tg Divide_32 fb duration = Some out ->
                  0 <= out < 2 ^ 32)
  /\ divide_release tg Divide_32 fb duration
     = divide_release tg Divide_32 fb (uint32_t duration)
  /\ (forall m out,
         m = FixedPoint_32 \/ m = Divide_32 ->
         2 ^ 32 <= duration / divisor fb ->
         divide tg m fb duration <> Returns out).
Proof.
  assert (exists out, divide_release tg FixedPoint_32 fb duration = Some out
                      /\ 0 <= out < 2 ^ 32) as H32.
  { eexists. split; [reflexivity|].
    unfold mul64, uint64_t. rewrite shr_div by lia.
    pose proof (Z.mod_pos_bound (duration * factor fb) (2 ^ 64)
                  ltac:(lia)) as [H0 H1].
    split; [apply Z.div_pos; lia|].
    apply Z.div_lt_upper_bound; lia. }
  assert (forall out, divide_release tg Divide_32 fb duration = Some out ->
                      0 <= out < 2 ^ 32) as Hd32.
  { intros out H. unfold divide_release in H. cbn [divide_switch] in H.
    apply udiv_Some in H as [Hd ->].
    pose proof (uint32_t_range duration) as [H0 H1].
    pose proof (uint32_t_range (divisor fb)) as [H2 H3].
    split; [apply Z.div_pos; lia|].
    apply Z.div_lt_upper_bound; [lia|]. nia. }
  split; [exact H32|]. split; [exact Hd32|]. split.
  - unfold divide_release. cbn [divide_switch]. f_equal.
    unfold uint32_t. rewrite Z.mod_mod by lia. reflexivity.
  - intros m out Hm Hq Hret.
    apply divide_returns_iff in Hret as (_ & _ & _ & Hout & Hrel).
    subst out. destruct Hm as [-> | ->].
    + destruct H32 as (o & Ho & Hb). rewrite Ho in Hrel.
      injection Hrel as Heq. lia.
    + apply Hd32 in Hrel. lia.
Qed.

(** X4. What a debug build returns is a bin index: the duration lies in the
    bin [[divisor * out, divisor * (out + 1))], the index is at most
    [max_duration / divisor], and a longer duration never gets a smaller
    index. *)
Theorem divide_returns_bin tg m fb duration out :
  0 < divisor fb -> 0 <= duration ->
  divide tg m fb duration = Returns out ->
  divisor fb * out <= duration < divisor fb * (out + 1)
  /\ 0 <= out <= max_duration fb / divisor fb
  /\ (forall duration' out',
         duration <= duration' ->
         divide tg m fb duration' = Returns out' -> out <= out').
Proof.
  intros Hd Hx Hret.
  apply divide_returns_iff in Hret as (Hle & _ & _ & Hout & _). subst out.
  pose proof (Z.div_mod duration (divisor fb) ltac:(lia)) as E.
  pose proof (Z.mod_pos_bound duration (divisor fb) Hd) as B.
  split; [lia|]. split.
  - split; [apply Z.div_pos; lia|]. apply Z.div_le_mono; lia.
  - intros duration' out' Hmono Hret'.
    apply divide_returns_iff in Hret' as (_ & _ & _ & Hout' & _). subst out'.
    apply Z.div_le_mono; lia.
Qed.

Lemma divide_returns_bin_witness :
  let fb := Build 7 100 0 0 Divide_32 in
  7 * 7 <= 50 < 7 * (7 + 1)
  /\ 0 <= 7 <= max_duration fb / divisor fb
  /\ (forall duration' out',
         50 <= duration' ->
         divide HasInt128 Divide_32 fb duration' = Returns out' -> 7 <= out').
Proof.
  intros fb.
  apply (divide_returns_bin HasInt128 Divide_32 fb 50 7).
  - cbn. lia.
  - lia.
  - reflexivity.
Defined.

(** X12. The release build past [max_duration], where the first assertion
    is gone: Dividend (divisor 1), PowerOfTwo (divisor [2^bits_shift]) and
    Divide_64 stay exact for every duration, while ConstZero is exact
    exactly for the durations below the divisor. *)
Theorem divide_release_beyond_max tg fb duration :
  0 <= duration ->
  (divisor fb = 1 ->
   divide_release tg Dividend fb duration = Some (duration / divisor fb))
  /\ (0 <= bits_shift fb < 64 -> divisor fb = 2 ^ bits_shift fb ->
      divide_release tg PowerOfTwo fb duration
      = Some (duration / divisor fb))
  /\ (divisor fb <> 0 ->
      divide_release tg Divide_64 fb duration = Some (duration / divisor fb))
  /\ (0 < divisor fb ->
      (divide_release tg ConstZero fb duration = Some (duration / divisor fb)
       <-> duration < divisor fb)).
Proof.
  intros Hx. unfold divide_release. cbn [divide_switch].
  split; [|split; [|split]].
  - intros ->. rewrite Z.div_1_r. reflexivity.
  - intros [Hs0 Hs1] ->.
    rewrite (proj2 (Z.leb_le _ _) Hs0), (proj2 (Z.ltb_lt _ _) Hs1).
    cbn [andb]. rewrite shr_div by lia. reflexivity.
  - intros Hd. apply udiv_Some. split; [exact Hd | reflexivity].
  - intros Hd. split.
    + intros [= H]. symmetry in H. apply Z.div_small_iff in H; lia.
    + intros Hlt. rewrite Z.div_small by lia. reflexivity.
Qed.

Lemma divide_release_beyond_max_witness :
  let fb := Build 8 100 0 3 PowerOfTwo in
  let duration := 2 ^ 40 + 5 in
  (divisor fb = 1 ->
   divide_release HasInt128 Dividend fb duration
   = Some (duration / divisor fb))
  /\ (0 <= bits_shift fb < 64 -> divisor fb = 2 ^ bits_shift fb ->
      divide_release HasInt128 PowerOfTwo fb duration
      = Some (duration / divisor fb))
  /\ (divisor fb <> 0 ->
      divide_release HasInt128 Divide_64 fb duration
      = Some (duration / divisor fb))
  /\ (0 < divisor fb ->
      (divide_release HasInt128 ConstZero fb duration
       = Some (duration / divisor fb)
       <-> duration < divisor fb)).
Proof.
  intros fb duration.
  apply (divide_release_beyond_max HasInt128 fb duration).
  unfold duration. lia.
Defined.

(** X13. [divide] does not depend on the target: for a 64-bit duration and
    factor the outcome of the debug build and the value of the release
    build are the same with [__int128], with [__umulh] and with the generic
    fallback. *)
Theorem divide_target_independent tg tg' m fb duration :
  is_uint64 duration -> is_uint64 (factor fb) ->
  divide tg m fb duration = divide tg' m fb duration
  /\ divide_release tg m fb duration = divide_release tg' m fb duration.
Proof.
  intros Hx Hf.
  assert (divide_switch tg m fb duration = divide_switch tg' m fb duration)
    as Hsw.
  { destruct m; cbn [divide_switch]; try reflexivity.
    rewrite (MulHigh_high tg), (MulHigh_high tg') by assumption.
    reflexivity. }
  unfold divide, divide_release. rewrite Hsw. split; reflexivity.
Qed.

Lemma divide_target_independent_witness :
  let fb := Build 1000 (10 ^ 12) 18446744073709552 0 FixedPoint_64 in
  divide HasInt128 FixedPoint_64 fb 123456789012
  = divide GenericTarget FixedPoint_64 fb 123456789012
  /\ divide_release HasInt128 FixedPoint_64 fb 123456789012
     = divide_release GenericTarget FixedPoint_64 fb 123456789012.
Proof.
  intros fb.
  apply (divide_target_independent HasInt128 GenericTarget FixedPoint_64 fb
           123456789012); unfold is_uint64; cbn; lia.
Defined.

End FastBinningOutcomes.

(** ** The fixed-point variants away from their selection condition *)

Module FixedPointFacts.
Import UInt UIntFacts FastBinning FastBinningFacts FastBinningOutcomes.
Import FixedPoint.

Lemma excess_spec bits d f x :
  0 <= bits -> 0 < d -> 0 <= x -> 2 ^ bits <= f * d ->
  (x * f) / 2 ^ bits = x / d + excess bits d f x
  /\ 0 <= excess bits d f x.
Proof.
  intros Hbits Hd Hx Hf. unfold excess.
  assert (0 < 2 ^ bits) as HP by (apply Z.pow_pos_nonneg; lia).
  set (P := 2 ^ bits) in *.
  pose proof (Z.div_mod x d ltac:(lia)) as E.
  pose proof (Z.mod_pos_bound x d Hd) as B.
  set (q := x / d) in *. set (r := x mod d) in *.
  set (k := x * f - P * q).
  assert (P * r + x * (f * d - P) = d * k) as -> by (unfold k; nia).
  assert (0 <= k) as Hk by (unfold k; nia).
  rewrite Z.div_mul_cancel_l by lia.
  split; [|apply Z.div_pos; lia].
  replace (x * f) with (q * P + k) by (unfold k; lia).
  rewrite Z.div_add_l by lia. reflexivity.
Qed.

Lemma excess_zero_iff bits d f x :
  0 <= bits -> 0 < d -> 0 <= x -> 2 ^ bits <= f * d ->
  excess bits d f x = 0
  <-> 2 ^ bits * (x mod d) + x * (f * d - 2 ^ bits) < d * 2 ^ bits.
Proof.
  intros Hbits Hd Hx Hf. unfold excess.
  assert (0 < 2 ^ bits) as HP by (apply Z.pow_pos_nonneg; lia).
  pose proof (Z.mod_pos_bound x d Hd) as B.
  assert (0 <= 2 ^ bits * (x mod d) + x * (f * d - 2 ^ bits)) as Hnum by nia.
  rewrite Z.div_small_iff by nia. lia.
Qed.

(** X5. With a factor rounded up ([2^N <= factor * divisor]) both
    fixed-point variants return the quotient plus
    [(2^N * (duration mod divisor) + duration * (factor * divisor - 2^N))
     / (divisor * 2^N)], where FixedPoint_32 needs the product
    [duration * factor] to fit in 64 bits.  Hence they never return less
    than the quotient, and they return it exactly when the numerator is
    below [divisor * 2^N]. *)
Theorem fixed_point_variants_excess tg fb duration :
  0 < divisor fb -> 0 <= duration -> 0 <= factor fb ->
  (2 ^ 32 <= factor fb * divisor fb -> duration * factor fb < 2 ^ 64 ->
   divide_release tg FixedPoint_32 fb duration
   = Some (duration / divisor fb
           + excess 32 (divisor fb) (factor fb) duration))
  /\ (2 ^ 64 <= factor fb * divisor fb ->
      duration < 2 ^ 64 -> factor fb < 2 ^ 64 ->
      divide_release tg FixedPoint_64 fb duration
      = Some (duration / divisor fb
              + excess 64 (divisor fb) (factor fb) duration))
  /\ (forall bits, 0 <= bits -> 2 ^ bits <= factor fb * divisor fb ->
        0 <= excess bits (divisor fb) (factor fb) duration
        /\ (excess bits (divisor fb) (factor fb) duration = 0
            <-> 2 ^ bits * (duration mod divisor fb)
                + duration * (factor fb * divisor fb - 2 ^ bits)
                < divisor fb * 2 ^ bits)).
Proof.
  intros Hd Hx Hf. split; [|split].
  - intros Hup Hfit. unfold divide_release. cbn [divide_switch]. f_equal.
    unfold mul64. rewrite uint64_t_small by (unfold is_uint64; nia).
    rewrite shr_div by lia.
    apply (excess_spec 32); lia.
  - intros Hup Hx64 Hf64. unfold divide_release. cbn [divide_switch]. f_equal.
    rewrite MulHigh_high by (unfold is_uint64; lia).
    apply (excess_spec 64); lia.
  - intros bits Hbits Hup. split.
    + apply excess_spec; assumption.
    + apply excess_zero_iff; assumption.
Qed.

Lemma fixed_point_variants_excess_witness :
  let fb := Build 3 (2 ^ 33) 1431655766 0 FixedPoint_32 in
  let duration := 2 ^ 32 + 1 in
  (2 ^ 32 <= factor fb * divisor fb -> duration * factor fb < 2 ^ 64 ->
   divide_release GenericTarget FixedPoint_32 fb duration
   = Some (duration / divisor fb
           + excess 32 (divisor fb) (factor fb) duration))
  /\ (2 ^ 64 <= factor fb * divisor fb ->
      duration < 2 ^ 64 -> factor fb < 2 ^ 64 ->
      divide_release GenericTarget FixedPoint_64 fb duration
      = Some (duration / divisor fb
              + excess 64 (divisor fb) (factor fb) duration))
  /\ (forall bits, 0 <= bits -> 2 ^ bits <= factor fb * divisor fb ->
        0 <= excess bits (divisor fb) (factor fb) duration
        /\ (excess bits (divisor fb) (factor fb) duration = 0
            <-> 2 ^ bits * (duration mod divisor fb)
                + duration * (factor fb * divisor fb - 2 ^ bits)
                < divisor fb * 2 ^ bits)).
Proof.
  intros fb duration.
  apply (fixed_point_variants_excess GenericTarget fb duration);
    vm_compute; congruence.
Defined.

Lemma in_range_bounds fb :
  in_range fb = true ->
  is_uint64 (divisor fb) /\ is_uint64 (max_duration fb)
  /\ is_uint64 (factor fb).
Proof.
  unfold in_range, is_uint64. intros Hr.
  repeat (apply andb_prop in Hr as [Hr ?]).
  repeat match goal with
         | H : (_ <=? _) = true |- _ => apply Z.leb_le in H
         | H : (_ <? _) = true |- _ => apply Z.ltb_lt in H
         end.
  lia.
Qed.

(** X6. A factor rounded down ([factor * divisor < 2^N]) is caught at the
    first multiple of the divisor: for [duration = divisor] both
    fixed-point variants compute 0 instead of 1, and the debug build stops
    at the assertion on the quotient. *)
Theorem fixed_point_rounded_down tg fb :
  in_range fb = true -> 0 < divisor fb <= max_duration fb ->
  (mode fb = FixedPoint_32 -> factor fb * divisor fb < 2 ^ 32 ->
   divide tg FixedPoint_32 fb (divisor fb) = AssertionFailed assert_quotient)
  /\ (mode fb = FixedPoint_64 -> factor fb * divisor fb < 2 ^ 64 ->
      divide tg FixedPoint_64 fb (divisor fb)
      = AssertionFailed assert_quotient).
Proof.
  intros Hr Hd. destruct (in_range_bounds fb Hr) as (Bd & Bm & Bf).
  unfold is_uint64 in *.
  assert (forall m out,
             m = mode fb -> divide_switch tg m fb (divisor fb) = Some out ->
             out = 0 ->
             divide tg m fb (divisor fb) = AssertionFailed assert_quotient)
    as Hfail.
  { intros m out Hm Hsw ->. unfold divide.
    rewrite (proj2 (Z.leb_le _ _) (proj2 Hd)). cbn [negb].
    rewrite bool_decide_eq_true_2 by exact Hm. cbn [negb].
    rewrite Hsw. unfold udiv.
    destruct (Z.eqb_spec (divisor fb) 0); [lia|].
    rewrite Z.div_same by lia. reflexivity. }
  split; intros Hm Hlow.
  - apply (Hfail _ _ (eq_sym Hm) eq_refl). unfold mul64.
    rewrite uint64_t_small by (unfold is_uint64; nia).
    rewrite shr_div by lia. apply Z.div_small. nia.
  - apply (Hfail _ _ (eq_sym Hm) eq_refl).
    rewrite MulHigh_high by (unfold is_uint64; lia).
    apply Z.div_small. nia.
Qed.

Lemma fixed_point_rounded_down_witness :
  let fb := Build 3 1000 1431655765 0 FixedPoint_32 in
  (mode fb = FixedPoint_32 -> factor fb * divisor fb < 2 ^ 32 ->
   divide HasInt128 FixedPoint_32 fb (divisor fb)
   = AssertionFailed assert_quotient)
  /\ (mode fb = FixedPoint_64 -> factor fb * divisor fb < 2 ^ 64 ->
      divide HasInt128 FixedPoint_64 fb (divisor fb)
      = AssertionFailed assert_quotient).
Proof.
  intros fb. apply (fixed_point_rounded_down HasInt128 fb).
  - reflexivity.
  - cbn. lia.
Defined.

(** The largest duration up to [m] that leaves the remainder [d - 1]. *)
Lemma last_residue d m :
  0 < d -> d - 1 <= m ->
  let x := m - (m + 1) mod d in
  0 <= x <= m /\ m - d + 1 <= x /\ x mod d = d - 1.
Proof.
  intros Hd Hm x.
  pose proof (Z.div_mod (m + 1) d ltac:(lia)) as E.
  pose proof (Z.mod_pos_bound (m + 1) d Hd) as B.
  assert (1 <= (m + 1) / d) as Hk
      by (apply Z.div_le_lower_bound; lia).
  repeat split; try (unfold x; nia).
  symmetry. apply (Z.mod_unique_pos _ _ ((m + 1) / d - 1)); [lia|].
  unfold x. nia.
Qed.

(** X7. What passing the assertions on the whole range forces on the
    factor: if a fixed-point object returns from the debug build for every
    duration up to [max_duration >= divisor], then the factor is rounded up
    and its excess [factor * divisor - 2^N], scaled by
    [max_duration - divisor + 1], stays below [2^N]. *)
Theorem fixed_point_exact_necessary tg fb :
  in_range fb = true -> 0 < divisor fb <= max_duration fb ->
  (forall duration,
      0 <= duration <= max_duration fb ->
      exists out, divide tg (mode fb) fb duration = Returns out) ->
  (mode fb = FixedPoint_32 -> max_duration fb * factor fb < 2 ^ 64 ->
   2 ^ 32 <= factor fb * divisor fb
   /\ (max_duration fb - divisor fb + 1) * (factor fb * divisor fb - 2 ^ 32)
      < 2 ^ 32)
  /\ (mode fb = FixedPoint_64 ->
      2 ^ 64 <= factor fb * divisor fb
      /\ (max_duration fb - divisor fb + 1) * (factor fb * divisor fb - 2 ^ 64)
         < 2 ^ 64).
Proof.
  intros Hr Hd Hall. destruct (in_range_bounds fb Hr) as (Bd & Bm & Bf).
  unfold is_uint64 in *.
  destruct (last_residue (divisor fb) (max_duration fb) ltac:(lia)
              ltac:(lia)) as (Hx & Hnear & Hres).
  set (x := max_duration fb - (max_duration fb + 1) mod divisor fb) in *.
  (* the factor is rounded up, or the assertion fails at the divisor *)
  assert (forall bits,
             (bits = 32 /\ mode fb = FixedPoint_32)
             \/ (bits = 64 /\ mode fb = FixedPoint_64) ->
             2 ^ bits <= factor fb * divisor fb) as Hup.
  { intros bits Hb.
    destruct (Z.le_gt_cases (2 ^ bits) (factor fb * divisor fb)) as [|Hlow];
      [assumption|exfalso].
    destruct (Hall (divisor fb) ltac:(lia)) as [out Hout].
    destruct (fixed_point_rounded_down tg fb Hr Hd) as [H32 H64].
    destruct Hb as [[-> Hm]|[-> Hm]]; rewrite Hm in Hout.
    - rewrite (H32 Hm Hlow) in Hout. discriminate.
    - rewrite (H64 Hm Hlow) in Hout. discriminate. }
  (* at [x] the excess is zero *)
  destruct (Hall x ltac:(lia)) as [out Hout].
  apply divide_returns_iff in Hout as (_ & _ & _ & Hq & Hrel). subst out.
  destruct (fixed_point_variants_excess tg fb x ltac:(lia) ltac:(lia)
              ltac:(lia)) as (E32 & E64 & Ezero).
  split; intros Hm; [intros Hfit|]; rewrite Hm in Hrel.
  - pose proof (Hup 32 (or_introl (conj eq_refl Hm))) as Hle.
    split; [exact Hle|].
    rewrite (E32 Hle ltac:(nia)) in Hrel. injection Hrel as Hex.
    destruct (Ezero 32 ltac:(lia) Hle) as [_ Hiff].
    assert (excess 32 (divisor fb) (factor fb) x = 0) as Hz by lia.
    apply (proj1 Hiff) in Hz. rewrite Hres in Hz. nia.
  - pose proof (Hup 64 (or_intror (conj eq_refl Hm))) as Hle.
    split; [exact Hle|].
    rewrite (E64 Hle ltac:(lia) ltac:(lia)) in Hrel. injection Hrel as Hex.
    destruct (Ezero 64 ltac:(lia) Hle) as [_ Hiff].
    assert (excess 64 (divisor fb) (factor fb) x = 0) as Hz by lia.
    apply (proj1 Hiff) in Hz. rewrite Hres in Hz. nia.
Qed.

Lemma fixed_point_exact_necessary_witness :
  let fb := Build 3 5 1431655766 0 FixedPoint_32 in
  (mode fb = FixedPoint_32 -> max_duration fb * factor fb < 2 ^ 64 ->
   2 ^ 32 <= factor fb * divisor fb
   /\ (max_duration fb - divisor fb + 1) * (factor fb * divisor fb - 2 ^ 32)
      < 2 ^ 32)
  /\ (mode fb = FixedPoint_64 ->
      2 ^ 64 <= factor fb * divisor fb
      /\ (max_duration fb - divisor fb + 1) * (factor fb * divisor fb - 2 ^ 64)
         < 2 ^ 64).
Proof.
  intros fb. apply (fixed_point_exact_necessary HasInt128 fb).
  - reflexivity.
  - cbn. lia.
  - intros duration Hd. cbn in Hd.
    assert (duration = 0 \/ duration = 1 \/ duration = 2 \/ duration = 3
            \/ duration = 4 \/ duration = 5) as Hcases by lia.
    destruct Hcases as [->|[->|[->|[->|[->| ->]]]]];
      eexists; vm_compute; reflexivity.
Defined.

(** The excess is not zero there: FixedPoint_32 with divisor 3 returns one
    bin too many at [2^32 + 1]. *)
Example FixedPoint_32_one_too_many :
  divide_release GenericTarget FixedPoint_32
    (Build 3 (2 ^ 33) 1431655766 0 FixedPoint_32) (2 ^ 32 + 1)
  = Some ((2 ^ 32 + 1) / 3 + 1).
Proof. vm_compute. reflexivity. Qed.

End FixedPointFacts.

(** ** MulHigh as an operation, and the carry of its generic fallback *)

Module MulHighFacts.
Import UInt UIntFacts FastBinning FastBinningFacts MulHighGeneric.

(** X8. On 64-bit operands [MulHigh] gives the same result on the three
    targets, is commutative, monotone in its first operand, returns a
    64-bit value smaller than every non-zero operand, and returns zero
    exactly when the product fits in 64 bits.  So FixedPoint_64 can never
    return a positive duration unchanged. *)
Theorem MulHigh_algebra tg a b :
  is_uint64 a -> is_uint64 b ->
  (forall tg', MulHigh tg' a b = MulHigh tg a b)
  /\ MulHigh tg a b = MulHigh tg b a
  /\ is_uint64 (MulHigh tg a b)
  /\ (0 < a -> MulHigh tg a b < a)
  /\ (MulHigh tg a b = 0 <-> a * b < 2 ^ 64)
  /\ (forall a', is_uint64 a' -> a <= a' ->
                 MulHigh tg a b <= MulHigh tg a' b).
Proof.
  intros Ha Hb. pose proof (high_word_range a b Ha Hb) as Hh.
  rewrite (MulHigh_high tg a b Ha Hb), (MulHigh_high tg b a Hb Ha).
  unfold is_uint64 in *.
  split; [intros tg'; apply MulHigh_high; assumption|].
  split; [f_equal; lia|]. split; [exact Hh|]. split; [|split].
  - intros Hpos. apply Z.div_lt_upper_bound; [lia|]. nia.
  - rewrite Z.div_small_iff by lia. nia.
  - intros a' Ha' Hle. rewrite (MulHigh_high tg a' b Ha' Hb).
    apply Z.div_le_mono; [lia|]. nia.
Qed.

Lemma MulHigh_algebra_witness :
  let a := 2 ^ 63 in
  let b := 6 in
  (forall tg', MulHigh tg' a b = MulHigh GenericTarget a b)
  /\ MulHigh GenericTarget a b = MulHigh GenericTarget b a
  /\ is_uint64 (MulHigh GenericTarget a b)
  /\ (0 < a -> MulHigh GenericTarget a b < a)
  /\ (MulHigh GenericTarget a b = 0 <-> a * b < 2 ^ 64)
  /\ (forall a', is_uint64 a' -> a <= a' ->
                 MulHigh GenericTarget a b <= MulHigh GenericTarget a' b).
Proof.
  intros a b. apply (MulHigh_algebra GenericTarget a b);
    unfold is_uint64, a, b; lia.
Defined.

Lemma MulHigh_generic_carry a b :
  MulHigh_generic a b
  = add64 (add64 (add64 (mul64 (shr a 32) (shr b 32))
                        (shr (mul64 (shr a 32) (uint32_t b)) 32))
                 (shr (mul64 (shr b 32) (uint32_t a)) 32))
          (carry_bit a b).
Proof. reflexivity. Qed.

(** X9. In the generic fallback of [MulHigh] the local [carry_bit] is 0, 1
    or 2 on 64-bit operands (2 is reached, so it is not a single bit), and
    none of the three additions that build the result wraps: the sum taken
    in unbounded arithmetic is the value returned. *)
Theorem carry_bit_range a b :
  is_uint64 a -> is_uint64 b ->
  0 <= carry_bit a b <= 2
  /\ multhi_unbounded a b = MulHigh_generic a b
  /\ carry_bit (2 ^ 33 - 1) (2 ^ 33 - 1) = 2.
Proof.
  intros Ha Hb.
  assert (carry_bit (2 ^ 33 - 1) (2 ^ 33 - 1) = 2) as Hmax
      by (vm_compute; reflexivity).
  cut (0 <= carry_bit a b <= 2
       /\ multhi_unbounded a b = (a * b) / 2 ^ 64).
  { intros [Hc Hm]. rewrite (MulHigh_generic_high a b Ha Hb).
    split; [exact Hc|]. split; [exact Hm | exact Hmax]. }
  clear Hmax. unfold multhi_unbounded, carry_bit. cbv zeta.
  pose proof (shr32_range a Ha) as Hah. pose proof (shr32_range b Hb) as Hbh.
  pose proof (uint32_t_range a) as Hal. pose proof (uint32_t_range b) as Hbl.
  pose proof (hi_lo_split a) as Ea. pose proof (hi_lo_split b) as Eb.
  set (a_hi := shr a 32) in *. set (a_lo := uint32_t a) in *.
  set (b_hi := shr b 32) in *. set (b_lo := uint32_t b) in *.
  destruct (mul64_limbs a_hi b_hi Hah Hbh) as [-> Bhh].
  destruct (mul64_limbs a_hi b_lo Hah Hbl) as [-> Bhl].
  destruct (mul64_limbs b_hi a_lo Hbh Hal) as [-> Blh].
  destruct (mul64_limbs a_lo b_lo Hal Hbl) as [-> Bll].
  destruct (split32 (a_hi * b_lo)) as (h1 & l1 & E1 & Bl1 & Bh1 & -> & ->);
    [lia|].
  destruct (split32 (b_hi * a_lo)) as (h2 & l2 & E2 & Bl2 & Bh2 & -> & ->);
    [lia|].
  destruct (split32 (a_lo * b_lo)) as (h3 & l3 & E3 & Bl3 & Bh3 & -> & _);
    [lia|].
  assert (h3 < 2 ^ 32) as Bh3' by lia.
  unfold add64.
  rewrite (uint64_t_small (l1 + l2)) by (unfold is_uint64; lia).
  rewrite (uint64_t_small (l1 + l2 + h3)) by (unfold is_uint64; lia).
  destruct (split32 (l1 + l2 + h3)) as (hc & lc & Ec & Blc & Bhc & -> & _);
    [lia|].
  split; [lia|].
  apply (Z.div_unique_pos _ _ _ (lc * 2 ^ 32 + l3)); [lia|].
  rewrite Ea, Eb. nia.
Qed.

Lemma carry_bit_range_witness :
  let a := 2 ^ 32 + 5 in
  let b := 2 ^ 63 + 2 ^ 31 in
  0 <= carry_bit a b <= 2
  /\ multhi_unbounded a b = MulHigh_generic a b
  /\ carry_bit (2 ^ 33 - 1) (2 ^ 33 - 1) = 2.
Proof.
  intros a b. apply (carry_bit_range a b); unfold is_uint64, a, b; lia.
Defined.

End MulHighFacts.

(** ** Dispatch through the macro *)

Module DispatchFacts.
Import UInt UIntFacts FastBinning FastBinningFacts.

Lemma BINNING_TEMPLATE_HELPER_dispatch {A : Type} (fun_name : Mode -> A)
    binner :
  BINNING_TEMPLATE_HELPER fun_name binner = fun_name (getMode binner).
Proof. unfold BINNING_TEMPLATE_HELPER. destruct (getMode binner); reflexivity. Qed.

(** X10. A function instantiated by the macro that divides a block of
    durations on the binner (as [FlimAbstract::process_tags<bin_mode>]
    does) gets the exact quotient for every one of them and trips no
    assertion, provided the binner satisfies the selection condition of its
    mode and the durations are within [max_duration]. *)
Theorem BINNING_TEMPLATE_HELPER_divide tg binner (durations : list Z) :
  in_range binner = true -> divisor binner <> 0 -> selected binner = true ->
  Forall (fun duration => 0 <= duration <= max_duration binner) durations ->
  BINNING_TEMPLATE_HELPER
    (fun bin_mode => List.map (divide tg bin_mode binner) durations) binner
  = List.map (fun duration => Returns (duration / divisor binner)) durations.
Proof.
  intros Hr Hd Hs Hall. rewrite BINNING_TEMPLATE_HELPER_dispatch.
  induction Hall as [|duration durations Hx _ IH]; [reflexivity|].
  cbn [List.map]. rewrite IH. f_equal.
  apply divide_of_switch; [exact Hd | lia |].
  apply divide_switch_exact; assumption.
Qed.

Lemma BINNING_TEMPLATE_HELPER_divide_witness :
  let binner := Build 1000 (10 ^ 12) 18446744073709552 0 FixedPoint_64 in
  let durations := [0; 999; 1000; 123456789012; 10 ^ 12] in
  BINNING_TEMPLATE_HELPER
    (fun bin_mode => List.map (divide GenericTarget bin_mode binner) durations)
    binner
  = List.map (fun duration => Returns (duration / divisor binner)) durations.
Proof.
  intros binner durations.
  apply (BINNING_TEMPLATE_HELPER_divide GenericTarget binner durations).
  - reflexivity.
  - discriminate.
  - reflexivity.
  - unfold durations, binner. repeat constructor; vm_compute; congruence.
Defined.

End DispatchFacts.

(** ** The choice of the constructor *)

Module ConstructorFacts.
Import UInt UIntFacts FastBinning FastBinningFacts FastBinningOutcomes.
Import FixedPointFacts.

Lemma in_range_intro d m f s md :
  0 <= d < 2 ^ 64 -> 0 <= m < 2 ^ 64 -> 0 <= f < 2 ^ 64 -> 0 <= s < 64 ->
  in_range (Build d m f s md) = true.
Proof.
  intros Hd Hm Hf Hs. unfold in_range. cbn.
  repeat (apply andb_true_intro; split);
    first [apply Z.leb_le; lia | apply Z.ltb_lt; lia].
Qed.

(** Exactness on the range, read on the switch. *)
Lemma exact_on_iff tg fb :
  0 <= max_duration fb ->
  exact_on tg fb
  <-> divisor fb <> 0
      /\ forall x, 0 <= x <= max_duration fb ->
                   divide_switch tg (mode fb) fb x = Some (x / divisor fb).
Proof.
  intros Hm. unfold exact_on. split.
  - intros Hex. split.
    + pose proof (Hex 0 ltac:(lia)) as H0.
      apply divide_returns_iff in H0 as (_ & _ & Hd & _). exact Hd.
    + intros x Hx. pose proof (Hex x Hx) as H.
      apply divide_returns_iff in H as (_ & _ & _ & _ & Hrel). exact Hrel.
  - intros [Hd Hsw] x Hx.
    apply (divide_of_switch tg fb x Hd); [lia|]. apply Hsw. exact Hx.
Qed.

Section Rows.
Variable tg : Target.
Variables d m : Z.
Hypothesis Hd : 0 < d < 2 ^ 64.
Hypothesis Hm : 0 <= m < 2 ^ 64.

Ltac build_object f s :=
  exists f, s; split; [apply in_range_intro; lia|]; split.

Lemma admits_ConstZero : admits tg d m ConstZero <-> m < d.
Proof.
  split.
  - intros (f & s & _ & Hrow & _). exact Hrow.
  - intros Hlt. build_object 0 0; [exact Hlt|].
    apply exact_on_iff; [cbn; lia|]. cbn. split; [lia|].
    intros x Hx. rewrite Z.div_small by lia. reflexivity.
Qed.

Lemma admits_Dividend : admits tg d m Dividend <-> d = 1.
Proof.
  split.
  - intros (f & s & _ & Hrow & _). exact Hrow.
  - intros ->. build_object 0 0; [reflexivity|].
    apply exact_on_iff; [cbn; lia|]. cbn. split; [lia|].
    intros x Hx. rewrite Z.div_1_r. reflexivity.
Qed.

Lemma admits_PowerOfTwo : admits tg d m PowerOfTwo <-> d = 2 ^ Z.log2 d.
Proof.
  split.
  - intros (f & s & _ & [Hs Hrow] & _). cbn in Hs, Hrow.
    rewrite Hrow at 2. rewrite Z.log2_pow2 by lia. exact Hrow.
  - intros Hpow. pose proof (log2_uint64 d Hd) as Hlog.
    build_object 0 (Z.log2 d); [cbn; split; [lia | exact Hpow]|].
    apply exact_on_iff; [cbn; lia|]. cbn. split; [lia|].
    intros x Hx.
    rewrite (proj2 (Z.leb_le _ _) (proj1 Hlog)).
    rewrite (proj2 (Z.ltb_lt _ _) (proj2 Hlog)). cbn [andb].
    rewrite shr_div by lia. rewrite <- Hpow. reflexivity.
Qed.

Lemma admits_FixedPoint_32 : admits tg d m FixedPoint_32 <-> fits_32 d m.
Proof.
  split.
  - intros (f & s & Hr & [Hf Hfit] & Hex). cbn in Hf, Hfit.
    apply in_range_bounds in Hr as (_ & _ & Bf). cbn in Bf.
    unfold is_uint64 in Bf.
    apply exact_on_iff in Hex as [_ Hsw]; [|cbn; lia]. cbn in Hsw.
    exists f. split; [lia|]. split; [exact Hfit|].
    intros x Hx. specialize (Hsw x Hx). injection Hsw as Hsw.
    unfold mul64 in Hsw.
    rewrite uint64_t_small in Hsw by (unfold is_uint64; nia).
    rewrite shr_div in Hsw by lia. exact Hsw.
  - intros (f & Hf & Hfit & Hq).
    build_object f 0; [cbn; split; [lia | exact Hfit]|].
    apply exact_on_iff; [cbn; lia|]. cbn. split; [lia|].
    intros x Hx. f_equal. unfold mul64.
    rewrite uint64_t_small by (unfold is_uint64; nia).
    rewrite shr_div by lia. apply Hq. exact Hx.
Qed.

Lemma admits_FixedPoint_64 : admits tg d m FixedPoint_64 <-> fits_64 d m.
Proof.
  split.
  - intros (f & s & Hr & _ & Hex).
    apply in_range_bounds in Hr as (_ & _ & Bf). cbn in Bf.
    apply exact_on_iff in Hex as [_ Hsw]; [|cbn; lia]. cbn in Hsw.
    exists f. split; [exact Bf|].
    intros x Hx. specialize (Hsw x Hx). injection Hsw as Hsw.
    rewrite MulHigh_high in Hsw by (unfold is_uint64 in *; lia).
    exact Hsw.
  - intros (f & Hf & Hq).
    build_object f 0; [exact I|].
    apply exact_on_iff; [cbn; lia|]. cbn. split; [lia|].
    intros x Hx. f_equal.
    rewrite MulHigh_high by (unfold is_uint64; lia).
    apply Hq. exact Hx.
Qed.

Lemma admits_Divide_32 :
  admits tg d m Divide_32 <-> d < 2 ^ 32 /\ m < 2 ^ 32.
Proof.
  split.
  - intros (f & s & _ & Hrow & _). exact Hrow.
  - intros [Hd32 Hm32]. build_object 0 0; [cbn; lia|].
    apply exact_on_iff; [cbn; lia|]. cbn. split; [lia|].
    intros x Hx. unfold uint32_t. rewrite !Z.mod_small by lia.
    apply udiv_Some. split; [lia | reflexivity].
Qed.

Lemma admits_Divide_64 : admits tg d m Divide_64.
Proof.
  build_object 0 0; [exact I|].
  apply exact_on_iff; [cbn; lia|]. cbn. split; [lia|].
  intros x Hx. apply udiv_Some. split; [lia | reflexivity].
Qed.

(** A variant is selected when it is admitted and no cheaper one is. *)
Lemma selects_iff md :
  selects tg d m md
  <-> admits tg d m md
      /\ ((rank ConstZero < rank md)%nat -> ~ m < d)
      /\ ((rank Dividend < rank md)%nat -> d <> 1)
      /\ ((rank PowerOfTwo < rank md)%nat -> d <> 2 ^ Z.log2 d)
      /\ ((rank FixedPoint_32 < rank md)%nat -> ~ fits_32 d m)
      /\ ((rank FixedPoint_64 < rank md)%nat -> ~ fits_64 d m)
      /\ ((rank Divide_32 < rank md)%nat -> ~ (d < 2 ^ 32 /\ m < 2 ^ 32)).
Proof.
  rewrite <- admits_ConstZero, <- admits_Dividend, <- admits_PowerOfTwo,
    <- admits_FixedPoint_32, <- admits_FixedPoint_64, <- admits_Divide_32.
  unfold selects. split.
  - intros [Ha Hno]. split; [exact Ha|]. repeat split; apply Hno.
  - intros (Ha & F0 & F1 & F2 & F3 & F4 & F5). split; [exact Ha|].
    intros md' Hr. destruct md'; try auto.
    destruct md; cbn in Hr; lia.
Qed.

Lemma selects_rows :
  let cheap := d <= m /\ d <> 1 /\ d <> 2 ^ Z.log2 d in
  (selects tg d m ConstZero <-> m < d)
  /\ (selects tg d m Dividend <-> d <= m /\ d = 1)
  /\ (selects tg d m PowerOfTwo <-> d <= m /\ d <> 1 /\ d = 2 ^ Z.log2 d)
  /\ (selects tg d m FixedPoint_32 <-> cheap /\ fits_32 d m)
  /\ (selects tg d m FixedPoint_64
      <-> cheap /\ ~ fits_32 d m /\ fits_64 d m)
  /\ (selects tg d m Divide_32
      <-> cheap /\ ~ fits_32 d m /\ ~ fits_64 d m
          /\ d < 2 ^ 32 /\ m < 2 ^ 32)
  /\ (selects tg d m Divide_64
      <-> cheap /\ ~ fits_32 d m /\ ~ fits_64 d m
          /\ ~ (d < 2 ^ 32 /\ m < 2 ^ 32)).
Proof.
  intros cheap. unfold cheap. clear cheap.
  rewrite !selects_iff.
  rewrite admits_ConstZero, admits_Dividend, admits_PowerOfTwo,
    admits_FixedPoint_32, admits_FixedPoint_64, admits_Divide_32.
  pose proof admits_Divide_64 as H64.
  cbn [rank].
  repeat match goal with |- _ /\ _ => split end.
  all: split; [intros (Ha & F0 & F1 & F2 & F3 & F4 & F5) | intros Hyp].
  all: repeat match goal with
              | H : (?a < ?b)%nat -> _ |- _ =>
                  first [ specialize (H ltac:(lia)) | clear H ]
              end.
  all: intuition lia.
Qed.

End Rows.

(** *** Deciding the rows *)

Lemma bounded_forall_dec (P : Z -> Prop) :
  (forall x, P x \/ ~ P x) ->
  forall n, (forall x, 0 <= x <= n -> P x)
            \/ ~ (forall x, 0 <= x <= n -> P x).
Proof.
  intros Hdec n. destruct (Z.lt_ge_cases n 0) as [Hneg|Hpos].
  { left. intros x Hx. lia. }
  revert n Hpos. apply natlike_ind.
  - destruct (Hdec 0) as [H0|H0].
    + left. intros x Hx. assert (x = 0) as -> by lia. exact H0.
    + right. intros Hall. apply H0, Hall. lia.
  - intros n Hn [IH|IH].
    + destruct (Hdec (Z.succ n)) as [Hs|Hs].
      * left. intros x Hx.
        destruct (Z.eq_dec x (Z.succ n)) as [->|Hne]; [exact Hs|].
        apply IH. lia.
      * right. intros Hall. apply Hs, Hall. lia.
    + right. intros Hall. apply IH. intros x Hx. apply Hall. lia.
Qed.

Lemma bounded_exists_dec (P : Z -> Prop) :
  (forall f, P f \/ ~ P f) ->
  forall n, (exists f, 0 <= f < n /\ P f)
            \/ ~ (exists f, 0 <= f < n /\ P f).
Proof.
  intros Hdec n. destruct (Z.lt_ge_cases n 0) as [Hneg|Hpos].
  { right. intros (f & Hf & _). lia. }
  revert n Hpos. apply natlike_ind.
  - right. intros (f & Hf & _). lia.
  - intros n Hn [IH|IH].
    + left. destruct IH as (f & Hf & HP). exists f. split; [lia | exact HP].
    + destruct (Hdec n) as [HP|HP].
      * left. exists n. split; [lia | exact HP].
      * right. intros (f & Hf & HPf).
        destruct (Z.eq_dec f n) as [->|Hne]; [exact (HP HPf)|].
        apply IH. exists f. split; [lia | exact HPf].
Qed.

Lemma fits_32_dec d m : fits_32 d m \/ ~ fits_32 d m.
Proof.
  unfold fits_32.
  destruct (bounded_exists_dec
              (fun f => m * f < 2 ^ 64
                        /\ forall x, 0 <= x <= m -> x * f / 2 ^ 32 = x / d))
    with (n := 2 ^ 32) as [(f & Hf & HP)|Hno].
  - intros f. destruct (Z.lt_ge_cases (m * f) (2 ^ 64)) as [Hlt|Hge].
    + destruct (bounded_forall_dec (fun x => x * f / 2 ^ 32 = x / d)) with (n := m)
        as [Hall|Hnot].
      * intros x. destruct (Z.eq_dec (x * f / 2 ^ 32) (x / d)); tauto.
      * left. split; assumption.
      * right. intros [_ H]. exact (Hnot H).
    + right. intros [H _]. lia.
  - left. exists f. tauto.
  - right. intros (f & Hf & HP). apply Hno. exists f. tauto.
Qed.

Lemma fits_64_dec d m : fits_64 d m \/ ~ fits_64 d m.
Proof.
  unfold fits_64.
  destruct (bounded_exists_dec
              (fun f => forall x, 0 <= x <= m -> x * f / 2 ^ 64 = x / d))
    with (n := 2 ^ 64) as [(f & Hf & HP)|Hno].
  - intros f.
    apply (bounded_forall_dec (fun x => x * f / 2 ^ 64 = x / d)).
    intros x. destruct (Z.eq_dec (x * f / 2 ^ 64) (x / d)); tauto.
  - left. exists f. tauto.
  - right. intros (f & Hf & HP). apply Hno. exists f. tauto.
Qed.

Lemma rank_inj md md' : rank md = rank md' -> md = md'.
Proof. destruct md, md'; cbn; intros H; try reflexivity; discriminate H. Qed.

Lemma selects_unique tg d m md md' :
  selects tg d m md -> selects tg d m md' -> md = md'.
Proof.
  intros [Ha Hno] [Ha' Hno'].
  destruct (Nat.lt_trichotomy (rank md) (rank md')) as [Hlt|[Heq|Hgt]].
  - exfalso. exact (Hno' md Hlt Ha).
  - apply rank_inj. exact Heq.
  - exfalso. exact (Hno md' Hgt Ha').
Qed.

Lemma selects_exists tg d m :
  0 < d < 2 ^ 64 -> 0 <= m < 2 ^ 64 -> exists md, selects tg d m md.
Proof.
  intros Hd Hm.
  destruct (selects_rows tg d m Hd Hm) as (R0 & R1 & R2 & R3 & R4 & R5 & R6).
  destruct (Z.lt_ge_cases m d) as [Hlt|Hge].
  { exists ConstZero. apply R0. exact Hlt. }
  destruct (Z.eq_dec d 1) as [H1|H1].
  { exists Dividend. apply R1. lia. }
  destruct (Z.eq_dec d (2 ^ Z.log2 d)) as [H2|H2].
  { exists PowerOfTwo. apply R2. lia. }
  assert (d <= m /\ d <> 1 /\ d <> 2 ^ Z.log2 d) as Hcheap by lia.
  destruct (fits_32_dec d m) as [H32|H32].
  { exists FixedPoint_32. apply R3. tauto. }
  destruct (fits_64_dec d m) as [H64|H64].
  { exists FixedPoint_64. apply R4. tauto. }
  destruct (Z.lt_ge_cases d (2 ^ 32)) as [Hd32|Hd32];
    [destruct (Z.lt_ge_cases m (2 ^ 32)) as [Hm32|Hm32]|].
  - exists Divide_32. apply R5. tauto.
  - exists Divide_64. apply R6. repeat split; try tauto. lia.
  - exists Divide_64. apply R6. repeat split; try tauto. lia.
Qed.

(** *** The four inputs of the spec *)

Lemma not_fits_32_1000 : ~ fits_32 1000 (10 ^ 12).
Proof.
  intros (f & Hf & Hfit & Hq).
  apply (FixedPoint_32_inexact_1000 f Hf). intros x Hx.
  unfold mul64. rewrite uint64_t_small by (unfold is_uint64; nia).
  rewrite shr_div by lia. apply Hq. exact Hx.
Qed.

Lemma fits_64_1000 : fits_64 1000 (10 ^ 12).
Proof.
  exists 18446744073709552. split; [lia|]. intros x Hx.
  apply fixed_point_quotient; lia.
Qed.

(** With exactness decided for every factor, a 64-bit factor always exists
    when both operands fit in 32 bits, so the row of Divide_32 is never
    reached. *)
Lemma fits_64_of_32_bits d m :
  1 < d < 2 ^ 32 -> 0 <= m < 2 ^ 32 -> fits_64 d m.
Proof.
  intros Hd Hm. exists (2 ^ 64 / d + 1).
  pose proof (Z.div_mod (2 ^ 64) d ltac:(lia)) as E.
  pose proof (Z.mod_pos_bound (2 ^ 64) d ltac:(lia)) as B.
  assert (0 <= 2 ^ 64 / d) by (apply Z.div_pos; lia).
  assert (2 ^ 64 / d <= 2 ^ 63)
    by (apply Z.div_le_upper_bound; lia).
  split; [lia|]. intros x Hx.
  apply fixed_point_quotient; try lia; nia.
Qed.

Lemma Divide_32_never_selected tg d m :
  0 < d < 2 ^ 64 -> 0 <= m < 2 ^ 64 -> ~ selects tg d m Divide_32.
Proof.
  intros Hd Hm Hsel.
  destruct (selects_rows tg d m Hd Hm) as (_ & _ & _ & _ & _ & R5 & _).
  apply R5 in Hsel as ((Hle & H1 & _) & _ & Hno & Hd32 & Hm32).
  apply Hno, fits_64_of_32_bits; lia.
Qed.

(** C2. The constructor, which chooses the cheapest variant, in the order
    of the table, whose row holds and which is exact on
    [[0, max_duration]], selects Dividend for (1, 10^12), PowerOfTwo for
    (1024, 10^12), FixedPoint_64 for (1000, 10^12) and ConstZero for
    (10^15, 10^12).  For every divisor and [max_duration] it selects
    exactly one variant: ConstZero when the divisor exceeds
    [max_duration]; else Dividend for divisor 1; else PowerOfTwo for a
    power of two; else FixedPoint_32 when a 32-bit factor whose product
    with [max_duration] fits in 64 bits is exact; else FixedPoint_64 when a
    64-bit factor is exact; else Divide_32 when both operands fit in 32
    bits; else Divide_64. *)
Theorem constructor_selects_mode tg :
  (selects tg 1 (10 ^ 12) Dividend
   /\ selects tg 1024 (10 ^ 12) PowerOfTwo
   /\ selects tg 1000 (10 ^ 12) FixedPoint_64
   /\ selects tg (10 ^ 15) (10 ^ 12) ConstZero)
  /\ (forall d m,
         0 < d < 2 ^ 64 -> 0 <= m < 2 ^ 64 ->
         let cheap := d <= m /\ d <> 1 /\ d <> 2 ^ Z.log2 d in
         (selects tg d m ConstZero <-> m < d)
         /\ (selects tg d m Dividend <-> d <= m /\ d = 1)
         /\ (selects tg d m PowerOfTwo
             <-> d <= m /\ d <> 1 /\ d = 2 ^ Z.log2 d)
         /\ (selects tg d m FixedPoint_32 <-> cheap /\ fits_32 d m)
         /\ (selects tg d m FixedPoint_64
             <-> cheap /\ ~ fits_32 d m /\ fits_64 d m)
         /\ (selects tg d m Divide_32
             <-> cheap /\ ~ fits_32 d m /\ ~ fits_64 d m
                 /\ d < 2 ^ 32 /\ m < 2 ^ 32)
         /\ (selects tg d m Divide_64
             <-> cheap /\ ~ fits_32 d m /\ ~ fits_64 d m
                 /\ ~ (d < 2 ^ 32 /\ m < 2 ^ 32))
         /\ (exists md, selects tg d m md)
         /\ (forall md md',
                selects tg d m md -> selects tg d m md' -> md = md')).
Proof.
  split.
  - destruct (selects_rows tg 1 (10 ^ 12) ltac:(lia) ltac:(lia))
      as (_ & R1 & _).
    destruct (selects_rows tg 1024 (10 ^ 12) ltac:(lia) ltac:(lia))
      as (_ & _ & R2 & _).
    destruct (selects_rows tg 1000 (10 ^ 12) ltac:(lia) ltac:(lia))
      as (_ & _ & _ & _ & R4 & _).
    destruct (selects_rows tg (10 ^ 15) (10 ^ 12) ltac:(lia) ltac:(lia))
      as (R0 & _).
    split; [|split; [|split]].
    + apply R1. lia.
    + apply R2. change (Z.log2 1024) with 10. lia.
    + apply R4. change (Z.log2 1000) with 9.
      split; [lia|]. split; [exact not_fits_32_1000 | exact fits_64_1000].
    + apply R0. lia.
  - intros d m Hd Hm cheap.
    destruct (selects_rows tg d m Hd Hm) as (R0 & R1 & R2 & R3 & R4 & R5 & R6).
    repeat (split; [assumption|]).
    split; [apply selects_exists; assumption|].
    intros md md'. apply selects_unique.
Qed.

End ConstructorFacts.
